(** * The worker pool of the Supernote plugin (src/main.js)

    A shallow embedding of [WorkerPool], [ImageConverter] and of the
    conversion block that the three call sites of [convertToImages] share,
    with the properties of the page-rendering pipeline proved about it;
    then of the code around the pool: [generateTimestamp],
    [dataUrlToBuffer], the [VaultWriter] and the commands of the plugin. *)

From Stdlib Require Import ZArith Lia Ascii.
From stdpp Require Import base numbers list strings pretty gmap.

Local Open Scope nat_scope.

(** ** JavaScript numbers as they occur in [processPages]

    The only numbers the pool computes with are array lengths, loop
    counters and what [/], [Math.ceil], [+] and [%] make of them.  On array
    lengths (below 2^32) the double-precision quotient is never rounded
    across an integer, so [Math.ceil (a / b)] is the exact ceiling; division
    by zero gives [Infinity] or [NaN] instead of raising. *)

Module Js.

Inductive Num : Type :=
| Fin (n : nat)
| Infinity
| NaN.

(** The ceiling of the quotient of two naturals, for a divisor that is not 0. *)
Definition ceil_nat (a b : nat) : nat :=
  a / b + (if a mod b =? 0 then 0 else 1).

(** [Math.ceil(a / b)] *)
Definition ceil_div (a b : nat) : Num :=
  match b, a with
  | 0, 0 => NaN
  | 0, S _ => Infinity
  | S _, _ => Fin (ceil_nat a b)
  end.

(** [x + y] *)
Definition add (x y : Num) : Num :=
  match x, y with
  | NaN, _ | _, NaN => NaN
  | Infinity, _ | _, Infinity => Infinity
  | Fin a, Fin b => Fin (a + b)
  end.

(** [x < n] for an array length [n] *)
Definition ltb (x : Num) (n : nat) : bool :=
  match x with
  | Fin a => a <? n
  | Infinity | NaN => false
  end.

(** [a % b] *)
Definition rem (a b : nat) : Num :=
  match b with
  | 0 => NaN
  | S _ => Fin (a mod b)
  end.

(** [arr[x]]: [undefined] (here [None]) out of range and at a key that is
    not an array index. *)
Definition index {A : Type} (arr : list A) (x : Num) : option A :=
  match x with
  | Fin i => arr !! i
  | Infinity | NaN => None
  end.

(** The relative index of [Array.prototype.slice], for an argument that is
    not negative: [NaN] counts as 0 and the result is clamped to the length. *)
Definition clamp (x : Num) (len : nat) : nat :=
  match x with
  | Fin i => i `min` len
  | Infinity => len
  | NaN => 0
  end.

(** [arr.slice(from, to)] *)
Definition slice {A : Type} (arr : list A) (from to : Num) : list A :=
  let k := clamp from (length arr) in
  let final := clamp to (length arr) in
  take (final - k) (drop k arr).

(** [arr.flat()] on an array of arrays *)
Definition flat {A : Type} (arr : list (list A)) : list A := concat arr.

End Js.

(** ** The chunking loop of [processPages]

<<
    for (let i = 0; i < allPageNumbers.length; i += chunkSize) {
        chunks.push(allPageNumbers.slice(i, i + chunkSize));
    }
>>
    The loop has no bound of its own: a [chunkSize] of 0 on a list that is
    not empty would spin forever.  The embedding runs it on fuel and answers
    [None] when the fuel is gone. *)

Fixpoint chunk_loop (fuel : nat) (allPageNumbers : list Z) (chunkSize i : Js.Num)
    (chunks : list (list Z)) : option (list (list Z)) :=
  match fuel with
  | 0 => None
  | S fuel' =>
      if Js.ltb i (length allPageNumbers)
      then chunk_loop fuel' allPageNumbers chunkSize (Js.add i chunkSize)
             (chunks ++ [Js.slice allPageNumbers i (Js.add i chunkSize)])
      else Some chunks
  end.

(** Lines 96-101: [chunkSize] and the loop, for a pool that holds
    [nworkers] workers.  Every run of the loop that ends does so within
    [length allPageNumbers] rounds and one more test (see
    [chunk_loop_more_fuel]). *)
Definition chunkSize_of (nworkers : nat) (allPageNumbers : list Z) : Js.Num :=
  Js.ceil_div (length allPageNumbers) nworkers.

Definition chunks_of (nworkers : nat) (allPageNumbers : list Z)
  : option (list (list Z)) :=
  chunk_loop (S (length allPageNumbers)) allPageNumbers
    (chunkSize_of nworkers allPageNumbers) (Js.Fin 0) [].

(** ** Documents, messages and errors *)

Definition WorkerId := nat.
Definition PoolId := nat.

(** An image is the data URL the worker sends back. *)
Definition Image := string.

(** What the pool reads of a parsed note: its pages and its geometry. *)
Record Page := { text : string }.
Record SupernoteX := { pages : list Page; pageWidth : nat; pageHeight : nat }.

(** The object literal built in [processChunk] (lines 82-86). *)
Record SupernoteWorkerMessage := {
  type : string;
  note : SupernoteX;
  pageNumbers : list Z
}.

(** Modelled from the spec: the declaration of [SupernoteWorkerResponse] is
    in myworker.worker; these are the two fields [processChunk] reads of it,
    the batch of results or an error. *)
Record SupernoteWorkerResponse := {
  images : list Image;
  error : option string
}.

(** What a worker makes of one message: it posts a response, or its
    execution context fails and the [error] event fires. *)
Inductive WorkerReply : Type :=
| Message (data : SupernoteWorkerResponse)
| ErrorEvent (detail : string).

Inductive JsError : Type :=
| TypeError                    (* a property is set on [undefined] *)
| Error (message : string)     (* [new Error(e.data.error)] *)
| WorkerError (detail : string). (* the event handed to [worker.onerror] *)

(** [if (e.data.error)]: a missing and an empty string are both falsy. *)
Definition truthy (error : option string) : bool :=
  match error with
  | Some s => negb (String.eqb s "")
  | None => false
  end.

(** ** The world: workers, pools and what was done to them *)

Inductive Event : Type :=
| NewPool (p : PoolId)
| NewWorker (w : WorkerId)
| PostMessage (w : WorkerId) (message : SupernoteWorkerMessage)
| WorkerTerminate (w : WorkerId)
| PoolTerminate (p : PoolId).

Record World := {
  next_worker : WorkerId;     (* supply of worker identities *)
  next_pool : PoolId;         (* supply of pool identities *)
  live : gset WorkerId;       (* workers constructed and not terminated *)
  log : list Event            (* every effect so far, oldest first *)
}.

(** How a call ends: it returns, it throws (an [async] function rejects), or
    it awaits a promise that is never settled. *)
Inductive Outcome (A : Type) : Type :=
| Fulfilled (a : A)
| Rejected (e : JsError)
| Pending.
Arguments Fulfilled {A} a.
Arguments Rejected {A} e.
Arguments Pending {A}.

Definition M (A : Type) : Type := World → Outcome A * World.

#[global] Instance M_ret : MRet M := λ A a σ, (Fulfilled a, σ).
#[global] Instance M_bind : MBind M := λ A B f m σ,
  match m σ with
  | (Fulfilled a, σ') => f a σ'
  | (Rejected e, σ') => (Rejected e, σ')
  | (Pending, σ') => (Pending, σ')
  end.

(** [await p] for a promise whose fate is known. *)
Definition await {A : Type} (p : Outcome A) : M A := λ σ, (p, σ).

(** [try { body } finally { cleanup }]: the cleanup runs when the body
    returns and when it throws, the outcome of the body stands unless the
    cleanup throws itself; a body that never ends never reaches it. *)
Definition try_finally {A B : Type} (body : M A) (cleanup : M B) : M A := λ σ,
  match body σ with
  | (Pending, σ') => (Pending, σ')
  | (o, σ') =>
      match cleanup σ' with
      | (Fulfilled _, σ'') => (o, σ'')
      | (Rejected e, σ'') => (Rejected e, σ'')
      | (Pending, σ'') => (Pending, σ'')
      end
  end.

Definition emit (ev : Event) : M unit := λ σ,
  (Fulfilled (),
   {| next_worker := next_worker σ; next_pool := next_pool σ;
      live := live σ; log := log σ ++ [ev] |}).

(** [arr.map(callback)] and [arr.forEach(callback)] with a callback that
    acts on the world; the callback gets the element and its index. *)
Fixpoint Array_map_from {A B : Type} (callback : A → nat → M B) (arr : list A)
    (index : nat) : M (list B) :=
  match arr with
  | [] => mret []
  | x :: rest =>
      y ← callback x index;
      ys ← Array_map_from callback rest (S index);
      mret (y :: ys)
  end.

Definition Array_map {A B : Type} (callback : A → nat → M B) (arr : list A)
  : M (list B) := Array_map_from callback arr 0.

Fixpoint Array_forEach {A : Type} (callback : A → M unit) (arr : list A) : M unit :=
  match arr with
  | [] => mret ()
  | x :: rest => callback x;; Array_forEach callback rest
  end.

(** *** The Worker interface of the host *)

(** [new Worker()] *)
Definition Worker_new : M WorkerId := λ σ,
  let w := next_worker σ in
  (Fulfilled w,
   {| next_worker := S w; next_pool := next_pool σ;
      live := {[w]} ∪ live σ; log := log σ ++ [NewWorker w] |}).

(** [worker.terminate()] *)
Definition Worker_terminate (w : WorkerId) : M unit := λ σ,
  (Fulfilled (),
   {| next_worker := next_worker σ; next_pool := next_pool σ;
      live := live σ ∖ {[w]}; log := log σ ++ [WorkerTerminate w] |}).

(** [worker.postMessage(message)] *)
Definition Worker_postMessage (w : WorkerId) (message : SupernoteWorkerMessage)
  : M unit := emit (PostMessage w message).

(** ** class WorkerPool *)

(** [pool_id] stands for the identity of the object; [workers] is the
    private array. *)
Record WorkerPool := {
  pool_id : PoolId;
  maxWorkers : nat;
  workers : list WorkerId
}.

Definition fresh_pool : M PoolId := λ σ,
  let p := next_pool σ in
  (Fulfilled p,
   {| next_worker := next_worker σ; next_pool := S p;
      live := live σ; log := log σ ++ [NewPool p] |}).

(** Lines 56-60.  [Array(maxWorkers)] raises a RangeError for a length
    that is negative or not an integer, so a pool only ever comes to exist
    for a natural number. *)
Definition WorkerPool_new (maxWorkers : nat) : M WorkerPool :=
  p ← fresh_pool;
  ws ← Array_map (λ _ _, Worker_new) (replicate maxWorkers ());
  mret {| pool_id := p; maxWorkers := maxWorkers; workers := ws |}.

(** The promise [processChunk] returns.  Its executor runs at once: either
    it throws before anything is sent, and the promise is rejected, or the
    two handlers of [worker] now belong to this promise and the message is
    on its way. *)
Inductive Promise : Type :=
| ExecutorThrew (e : JsError)
| Waiting (worker : WorkerId) (pageNumbers : list Z).

(** Lines 62-90.  [worker] is [None] when the lookup in [processPages]
    gave [undefined]; then [worker.onmessage = ...] is a TypeError. *)
Definition processChunk (worker : option WorkerId) (note : SupernoteX)
    (pageNumbers : list Z) : M Promise :=
  match worker with
  | None => mret (ExecutorThrew TypeError)
  | Some w =>
      Worker_postMessage w
        {| type := "convert"; note := note; pageNumbers := pageNumbers |};;
      mret (Waiting w pageNumbers)
  end.

(** The two handlers of lines 66-80, applied to what the worker did. *)
Definition onmessage (data : SupernoteWorkerResponse) : Outcome (list Image) :=
  if truthy (error data)
  then Rejected (Error (default "" (error data)))
  else Fulfilled (images data).

Definition onerror (detail : string) : Outcome (list Image) :=
  Rejected (WorkerError detail).

Definition deliver (r : WorkerReply) : Outcome (list Image) :=
  match r with
  | Message data => onmessage data
  | ErrorEvent detail => onerror detail
  end.

Definition posted_to (w : WorkerId) (p : Promise) : option (list Z) :=
  match p with
  | Waiting w' pageNumbers => if decide (w = w') then Some pageNumbers else None
  | ExecutorThrew _ => None
  end.

(** [Promise.all]: rejected as soon as one promise is, fulfilled with all
    the values in the order of the promises when all are, and pending
    otherwise.  Which of several rejections comes first is a matter of
    timing; the leftmost stands for it here, and no theorem below depends on
    which one it is. *)
Fixpoint first_rejection {A : Type} (ps : list (Outcome A)) : option JsError :=
  match ps with
  | [] => None
  | Rejected e :: _ => Some e
  | _ :: rest => first_rejection rest
  end.

Fixpoint all_fulfilled {A : Type} (ps : list (Outcome A)) : option (list A) :=
  match ps with
  | [] => Some []
  | Fulfilled a :: rest => cons a <$> all_fulfilled rest
  | _ :: _ => None
  end.

Definition Promise_all {A : Type} (ps : list (Outcome A)) : Outcome (list A) :=
  match first_rejection ps with
  | Some e => Rejected e
  | None =>
      match all_fulfilled ps with
      | Some values => Fulfilled values
      | None => Pending
      end
  end.

Section Host.

(** The code of the worker (myworker.worker) is not part of the pool: a
    worker answers each message it is sent, and what it answers is up to
    it. *)
Variable worker_answer : WorkerId → SupernoteX → list Z → WorkerReply.

(** [navigator.hardwareConcurrency] *)
Variable hardwareConcurrency : nat.

(** How the promise of chunk [k] ends, given all promises of the call.
    A worker has one [onmessage] and one [onerror] slot and
    [processChunk] assigns both, so of several promises waiting on one
    worker only the last owns the handlers: it is settled by the first
    answer of that worker, which answers the first message it was sent,
    and the promises before it are never settled. *)
Definition settle (note : SupernoteX) (promises : list Promise) (k : nat)
    (p : Promise) : Outcome (list Image) :=
  match p with
  | ExecutorThrew e => Rejected e
  | Waiting w _ =>
      match omap (posted_to w) (drop (S k) promises) with
      | _ :: _ => Pending
      | [] =>
          match omap (posted_to w) promises with
          | first :: _ => deliver (worker_answer w note first)
          | [] => Pending
          end
      end
  end.

(** Lines 92-114. *)
Definition processPages (this : WorkerPool) (note : SupernoteX)
    (allPageNumbers : list Z) : M (list Image) :=
  let chunkSize := Js.ceil_div (length allPageNumbers) (length (workers this)) in
  match chunk_loop (S (length allPageNumbers)) allPageNumbers chunkSize
          (Js.Fin 0) [] with
  | None => await Pending
  | Some chunks =>
      promises ← Array_map (λ chunk index,
          processChunk
            (Js.index (workers this) (Js.rem index (length (workers this))))
            note chunk) chunks;
      results ← await (Promise_all (imap (settle note promises) promises));
      mret (Js.flat results)
  end.

(** Lines 116-119. *)
Definition WorkerPool_terminate (this : WorkerPool) : M WorkerPool :=
  emit (PoolTerminate (pool_id this));;
  Array_forEach Worker_terminate (workers this);;
  mret {| pool_id := pool_id this; maxWorkers := maxWorkers this; workers := [] |}.

(** ** class ImageConverter *)

Record ImageConverter := { workerPool : WorkerPool }.

(** Lines 125-127. *)
Definition ImageConverter_new (maxWorkers : nat) : M ImageConverter :=
  pool ← WorkerPool_new maxWorkers;
  mret {| workerPool := pool |}.

(** [Array.from({length: n}, (_, i) => i+1)] *)
Definition all_pages (note : SupernoteX) : list Z :=
  (λ i, Z.of_nat i + 1)%Z <$> seq 0 (length (pages note)).

(** Lines 129-133. *)
Definition convertToImages (this : ImageConverter) (note : SupernoteX)
    (pageNumbers : option (list Z)) : M (list Image) :=
  let pages := default (all_pages note) pageNumbers in
  results ← processPages (workerPool this) note pages;
  mret results.

(** Lines 135-137. *)
Definition ImageConverter_terminate (this : ImageConverter) : M ImageConverter :=
  pool ← WorkerPool_terminate (workerPool this);
  mret {| workerPool := pool |}.

(** ** The three calls of [convertToImages]

    [VaultWriter.writeImageFiles] (lines 184-190), [VaultWriter.exportToPDF]
    (lines 228-234) and [onLoadFile] (lines 291-297) each hold the same
    block: [new ImageConverter()], which takes the default
    [navigator.hardwareConcurrency], then [convertToImages(sn)] in [try] and
    [converter.terminate()] in [finally].  What they do with the images
    afterwards is not modelled. *)
Definition writeImageFiles_convert (sn : SupernoteX) : M (list Image) :=
  converter ← ImageConverter_new hardwareConcurrency;
  try_finally (convertToImages converter sn None)
              (ImageConverter_terminate converter).

Definition exportToPDF_convert (sn : SupernoteX) : M (list Image) :=
  converter ← ImageConverter_new hardwareConcurrency;
  try_finally (convertToImages converter sn None)
              (ImageConverter_terminate converter).

Definition onLoadFile_convert (sn : SupernoteX) : M (list Image) :=
  converter ← ImageConverter_new hardwareConcurrency;
  try_finally (convertToImages converter sn None)
              (ImageConverter_terminate converter).

Definition call_sites : list (SupernoteX → M (list Image)) :=
  [writeImageFiles_convert; exportToPDF_convert; onLoadFile_convert].

End Host.

(** ** Reading the log *)

Definition pools_created (evs : list Event) : list PoolId :=
  omap (λ ev, match ev with NewPool p => Some p | _ => None end) evs.

Definition pools_terminated (evs : list Event) : list PoolId :=
  omap (λ ev, match ev with PoolTerminate p => Some p | _ => None end) evs.

Definition workers_created (evs : list Event) : list WorkerId :=
  omap (λ ev, match ev with NewWorker w => Some w | _ => None end) evs.

Definition workers_terminated (evs : list Event) : list WorkerId :=
  omap (λ ev, match ev with WorkerTerminate w => Some w | _ => None end) evs.

Definition messages_posted (evs : list Event)
  : list (WorkerId * SupernoteWorkerMessage) :=
  omap (λ ev, match ev with PostMessage w m => Some (w, m) | _ => None end) evs.

(** ** Closed forms and sample hosts used in the statements *)

#[global] Instance Outcome_fmap : FMap Outcome := λ A B f o,
  match o with
  | Fulfilled a => Fulfilled (f a)
  | Rejected e => Rejected e
  | Pending => Pending
  end.

(** The world after some more events. *)
Definition with_log (σ : World) (evs : list Event) : World :=
  {| next_worker := next_worker σ; next_pool := next_pool σ;
     live := live σ; log := log σ ++ evs |}.

(** The worker [processPages] picks for the chunk at [index]. *)
Definition dispatch_worker (ws : list WorkerId) (index : nat) : option WorkerId :=
  Js.index ws (Js.rem index (length ws)).

(** What [processChunk] returns and what it sends for the chunk at [index]. *)
Definition promise_of (ws : list WorkerId) (index : nat) (chunk : list Z) : Promise :=
  match dispatch_worker ws index with
  | None => ExecutorThrew TypeError
  | Some w => Waiting w chunk
  end.

Definition convert_message (sn : SupernoteX) (chunk : list Z) : SupernoteWorkerMessage :=
  {| type := "convert"; note := sn; pageNumbers := chunk |}.

Definition post_of (ws : list WorkerId) (sn : SupernoteX) (index : nat)
    (chunk : list Z) : list Event :=
  match dispatch_worker ws index with
  | None => []
  | Some w => [PostMessage w (convert_message sn chunk)]
  end.

Definition waiting_on (p : Promise) : option WorkerId :=
  match p with
  | Waiting w _ => Some w
  | ExecutorThrew _ => None
  end.

(** The answers to the chunks of a call and the messages that carry them,
    chunk [k] going to worker [k]. *)
Definition answers (worker_answer : WorkerId → SupernoteX → list Z → WorkerReply)
    (sn : SupernoteX) (ws : list WorkerId) (chunks : list (list Z))
  : list (Outcome (list Image)) :=
  zip_with (λ w chunk, deliver (worker_answer w sn chunk)) ws chunks.

Definition posts (sn : SupernoteX) (ws : list WorkerId) (chunks : list (list Z))
  : list Event :=
  zip_with (λ w chunk, PostMessage w (convert_message sn chunk)) ws chunks.

(** The workers of a pool are distinct objects. *)
Definition pool_ok (this : WorkerPool) : Prop := NoDup (workers this).

(** [terminate()] called [n] times in a row. *)
Fixpoint terminate_times (n : nat) (this : WorkerPool) : M WorkerPool :=
  match n with
  | 0 => mret this
  | S n' => this' ← WorkerPool_terminate this; terminate_times n' this'
  end.

(** A worker that renders every page it is asked for, and one that fails on
    the chunks that hold page 2. *)
Definition sample_render (sn : SupernoteX) (page : Z) : Image :=
  String.append "page " (pretty page).

Definition rendering_worker (w : WorkerId) (sn : SupernoteX) (chunk : list Z)
  : WorkerReply :=
  Message {| images := sample_render sn <$> chunk; error := None |}.

Definition failing_worker (w : WorkerId) (sn : SupernoteX) (chunk : list Z)
  : WorkerReply :=
  if bool_decide (2%Z ∈ chunk)
  then Message {| images := []; error := Some "cannot render page 2" |}
  else rendering_worker w sn chunk.



Definition sample_note (n : nat) : SupernoteX :=
  {| pages := replicate n {| text := "" |}; pageWidth := 1404; pageHeight := 1872 |}.

Definition empty_world : World :=
  {| next_worker := 0; next_pool := 0; live := ∅; log := [] |}.


(** Chunk [k] of a list cut into pieces of [c]. *)
Definition nth_chunk (allPageNumbers : list Z) (c k : nat) : list Z :=
  take c (drop (k * c) allPageNumbers).

(** A converter with [n] workers as [new ImageConverter(n)] makes it in the
    empty world, and the world it leaves. *)
Definition sample_pool (n : nat) : WorkerPool :=
  {| pool_id := 0; maxWorkers := n; workers := seq 0 n |}.

Definition sample_converter (n : nat) : ImageConverter :=
  {| workerPool := sample_pool n |}.

Definition sample_world (n : nat) : World :=
  {| next_worker := n; next_pool := 1;
     live := list_to_set (seq 0 n);
     log := NewPool 0 :: (NewWorker <$> seq 0 n) |}.

(** ** Strings of the host language *)

Module JsStr.

(** [String(n)] for a number that is a natural. *)
Definition of_nat (n : nat) : string := pretty n.

Fixpoint repeat (c : Ascii.ascii) (n : nat) : string :=
  match n with
  | 0 => ""
  | S n' => String.String c (repeat c n')
  end.

(** [s.padStart(targetLength, fill)] for a fill of one character. *)
Definition padStart (s : string) (targetLength : nat) (fill : Ascii.ascii) : string :=
  repeat fill (targetLength - String.length s) +:+ s.

(** [s.split(sep)] for a separator of one character: the pieces between
    the separators, at least one. *)
Fixpoint split (sep : Ascii.ascii) (s : string) : list string :=
  match s with
  | String.EmptyString => [""]
  | String.String c rest =>
      if decide (c = sep) then "" :: split sep rest
      else match split sep rest with
           | piece :: pieces => String.String c piece :: pieces
           | [] => [String.String c ""]
           end
  end.

(** [s.charCodeAt(i)], [NaN] (here [None]) out of range. *)
Definition charCodeAt (s : string) (i : nat) : option nat :=
  Ascii.nat_of_ascii <$> String.get i s.

(** The text a template literal makes of a string that may be [undefined]. *)
Definition of_optional (s : option string) : string := default "undefined" s.

End JsStr.

(** The decimal digit [d] as a character. *)
Definition digit (d : nat) : Ascii.ascii := Ascii.ascii_of_nat (48 + d).

(** ** [generateTimestamp] (lines 26-37)

    The reading of the clock, [new Date()], is the argument; the getters
    are its fields, the month counted from 0 as [getMonth] does. *)
Record Date := {
  getFullYear : nat;
  getMonth : nat;
  getDate : nat;
  getHours : nat;
  getMinutes : nat;
  getSeconds : nat
}.

Definition generateTimestamp (date : Date) : string :=
  let year := getFullYear date in
  let month := JsStr.padStart (JsStr.of_nat (getMonth date + 1)) 2 "0"%char in
  let day := JsStr.padStart (JsStr.of_nat (getDate date)) 2 "0"%char in
  let hours := JsStr.padStart (JsStr.of_nat (getHours date)) 2 "0"%char in
  let minutes := JsStr.padStart (JsStr.of_nat (getMinutes date)) 2 "0"%char in
  let seconds := JsStr.padStart (JsStr.of_nat (getSeconds date)) 2 "0"%char in
  JsStr.of_nat year +:+ "-" +:+ month +:+ "-" +:+ day +:+ "-" +:+ hours
    +:+ "-" +:+ minutes +:+ "-" +:+ seconds.

(** The readings a clock can give: a month index below 12, a day of the
    month, and a time of day. *)
Definition clock_reading (date : Date) : Prop :=
  getMonth date < 12 ∧ 1 ≤ getDate date ≤ 31 ∧ getHours date < 24 ∧
  getMinutes date < 60 ∧ getSeconds date < 60.

(** Which of two clock readings is the earlier. *)
Definition then_compare (c : comparison) (rest : comparison) : comparison :=
  match c with
  | Eq => rest
  | ne => ne
  end.

Definition date_compare (d1 d2 : Date) : comparison :=
  then_compare (getFullYear d1 ?= getFullYear d2)
    (then_compare (getMonth d1 ?= getMonth d2)
      (then_compare (getDate d1 ?= getDate d2)
        (then_compare (getHours d1 ?= getHours d2)
          (then_compare (getMinutes d1 ?= getMinutes d2)
            (getSeconds d1 ?= getSeconds d2))))).

(** ** [dataUrlToBuffer] (lines 39-51)

    [atob] is the base64 decoder of the host: it returns the decoded binary
    string or throws.  [new Uint8Array(n)] is [n] zeros, and a store into it
    keeps the value modulo 256. *)
Definition Uint8Array_store (bytes : list nat) (i : nat) (value : option nat)
  : list nat :=
  <[i := default 0 value `mod` 256]> bytes.

Definition copy_bytes (binaryString : string) : list nat :=
  foldl (λ bytes i, Uint8Array_store bytes i (JsStr.charCodeAt binaryString i))
        (replicate (String.length binaryString) 0)
        (seq 0 (String.length binaryString)).

Definition dataUrlToBuffer (atob : string → JsError + string) (dataUrl : string)
  : JsError + list nat :=
  let base64 := JsStr.of_optional (JsStr.split ","%char dataUrl !! 1) in
  match atob base64 with
  | inl e => inl e
  | inr binaryString => inr (copy_bytes binaryString)
  end.

(** ** The vault, the screen and the plugin around the pool *)

Definition nl : string := String.String "010"%char "".

(** A file handle of the host, with the fields the plugin reads. *)
Record TFile := {
  path : string;
  name : string;
  basename : string;
  extension : string;
  parent : option string      (* [file.parent?.path] *)
}.

Inductive FileData : Type :=
| TextData (content : string)
| BinaryData (buffer : list nat).

(** Lines 8-24. *)
Record SupernotePluginSettings := {
  mirrorIP : string;
  invertColorsWhenDark : bool;
  showTOC : bool;
  showExportButtons : bool;
  collapseRecognizedText : bool;
  noteImageMaxDim : nat
}.

Definition DEFAULT_SETTINGS : SupernotePluginSettings :=
  {| mirrorIP := ""; invertColorsWhenDark := true; showTOC := true;
     showExportButtons := true; collapseRecognizedText := false;
     noteImageMaxDim := 800 |}.

(** What the user gets to see and what is asked of the network. *)
Inductive UiEvent : Type :=
| ShowMirrorErrorModal (text : string)
| ShowErrorModal (text : string)
| ShowFileListModal
| FetchMirrorFrame (url : string)
| EditorReplaceRange (link : string).

(** The calls made on the jsPDF document of [exportToPDF]. *)
Inductive PdfOp : Type :=
| PdfNew (width height : nat)
| PdfAddPage
| PdfSetFontSize (size : nat)
| PdfSetTextColor (c1 c2 c3 c4 : nat)
| PdfText (content : string) (x y maxWidth : nat)
| PdfAddImage (image : Image) (x y width height : nat).

Record Host := {
  world : World;                      (* the workers *)
  files : gmap string FileData;       (* the files of the vault, by path *)
  screen : list UiEvent;              (* oldest first *)
  activeFile : option TFile;          (* [workspace.getActiveFile()] *)
  activeEditorFile : option TFile     (* [workspace.activeEditor?.file] *)
}.

Definition H (A : Type) : Type := Host → Outcome A * Host.

#[global] Instance H_ret : MRet H := λ A a h, (Fulfilled a, h).
#[global] Instance H_bind : MBind H := λ A B f m h,
  match m h with
  | (Fulfilled a, h') => f a h'
  | (Rejected e, h') => (Rejected e, h')
  | (Pending, h') => (Pending, h')
  end.

Definition with_world (h : Host) (σ : World) : Host :=
  {| world := σ; files := files h; screen := screen h;
     activeFile := activeFile h; activeEditorFile := activeEditorFile h |}.

Definition with_files (h : Host) (fs : gmap string FileData) : Host :=
  {| world := world h; files := fs; screen := screen h;
     activeFile := activeFile h; activeEditorFile := activeEditorFile h |}.

Definition show (ev : UiEvent) : H unit := λ h,
  (Fulfilled (),
   {| world := world h; files := files h; screen := screen h ++ [ev];
      activeFile := activeFile h; activeEditorFile := activeEditorFile h |}).

(** A computation on the workers, run in the plugin. *)
Definition lift {A : Type} (m : M A) : H A := λ h,
  let '(o, σ) := m (world h) in (o, with_world h σ).

(** [throw e], and the value or the exception of a call that can throw. *)
Definition throw {A : Type} (e : JsError) : H A := λ h, (Rejected e, h).

Definition returned {A : Type} (r : JsError + A) : H A :=
  match r with
  | inl e => throw e
  | inr a => mret a
  end.

(** A promise that is made and not awaited: what it does is done, how it
    ends is not looked at. *)
Definition unawaited {A : Type} (m : H A) : H unit := λ h,
  let '(_, h') := m h in (Fulfilled (), h').

(** [try { body } catch (err) { handler }] *)
Definition try_catch {A : Type} (body : H A) (handler : JsError → H A) : H A := λ h,
  match body h with
  | (Rejected e, h') => handler e h'
  | (o, h') => (o, h')
  end.

(** [try { body } finally { cleanup }] in the plugin, as [try_finally] on
    the workers. *)
Definition try_finally_H {A B : Type} (body : H A) (cleanup : H B) : H A := λ h,
  match body h with
  | (Pending, h') => (Pending, h')
  | (o, h') =>
      match cleanup h' with
      | (Fulfilled _, h'') => (o, h'')
      | (Rejected e, h'') => (Rejected e, h'')
      | (Pending, h'') => (Pending, h'')
      end
  end.

(** [err.message] *)
Definition message_of (e : JsError) : string :=
  match e with
  | TypeError => "undefined is not an object"
  | Error message => message
  | WorkerError detail => detail
  end.

(** The text of [MirrorErrorModal.onOpen] (line 585), as it is shown. *)
Definition mirror_error_text : string :=
  "Error: ${this.error.message}. Is the Supernote connected to Wifi on IP ${this.settings.mirrorIP} and running Browse and Access on HTTP://a.b.c.d:8089 ?".

(** A computation that puts nothing on the screen. *)
Definition quiet {A : Type} (m : H A) : Prop := ∀ h, screen (m h).2 = screen h.

(** The file-name loop of [writeMarkdownFile] (lines 153-157):
<<
    while (this.app.vault.getFileByPath(filename) !== null) {
        filename = `${file.parent?.path}/${file.basename} ${++i}.md`;
    }
>>
    on fuel, [None] when it is gone. *)
Definition numbered_name (file : TFile) (i : nat) : string :=
  JsStr.of_optional (parent file) +:+ "/" +:+ basename file +:+ " "
    +:+ JsStr.of_nat i +:+ ".md".

Definition plain_name (file : TFile) : string :=
  JsStr.of_optional (parent file) +:+ "/" +:+ basename file +:+ ".md".

Fixpoint filename_loop (fuel : nat) (fs : gmap string FileData) (file : TFile)
    (i : nat) (filename : string) : option string :=
  match fuel with
  | 0 => None
  | S fuel' =>
      if decide (is_Some (fs !! filename))
      then filename_loop fuel' fs file (S i) (numbered_name file (S i))
      else Some filename
  end.

(** The candidates the loop goes through, in order. *)
Definition candidate (file : TFile) (i : nat) : string :=
  match i with
  | 0 => plain_name file
  | S _ => numbered_name file i
  end.

(** [text !== undefined && text.length > 0]: a page without text is kept
    as a page whose text is empty, every reader of the text testing both. *)
Definition has_text (page : Page) : bool := negb (String.eqb (text page) "").

Section Plugin.

Variable worker_answer : WorkerId → SupernoteX → list Z → WorkerReply.
Variable hardwareConcurrency : nat.

(** The host: [atob], the handle of the file at a path,
    [fileManager.generateMarkdownLink] (the file may be [undefined], the
    subpath left out), [fileManager.getAvailablePathForAttachment], the
    parser [new SupernoteX(bytes)], the bytes [pdf.output('arraybuffer')]
    makes of a document, and [fetchMirrorFrame] with [toBuffer]. *)
Variable atob : string → JsError + string.
Variable file_at : string → TFile.
Variable generateMarkdownLink : option TFile → string → option string → string.
Variable getAvailablePath : gmap string FileData → string → string.
Variable SupernoteX_new : list nat → JsError + SupernoteX.
Variable pdf_output : list PdfOp → list nat.
Variable fetchMirrorFrame : string → JsError + list nat.

Variable settings : SupernotePluginSettings.

(** *** The vault of the host

    [create] and [createBinary] make the file when the path is free and
    reject when it is taken; [readBinary] gives the bytes of a binary file. *)
Definition Vault_getFileByPath (p : string) : H (option TFile) := λ h,
  (Fulfilled (match files h !! p with Some _ => Some (file_at p) | None => None end), h).

Definition Vault_write (p : string) (data : FileData) : H TFile := λ h,
  match files h !! p with
  | Some _ => (Rejected (Error "File already exists."), h)
  | None => (Fulfilled (file_at p), with_files h (<[p := data]> (files h)))
  end.

Definition Vault_create (p : string) (content : string) : H TFile :=
  Vault_write p (TextData content).

Definition Vault_createBinary (p : string) (buffer : list nat) : H TFile :=
  Vault_write p (BinaryData buffer).

Definition Vault_readBinary (file : TFile) : H (list nat) := λ h,
  match files h !! path file with
  | Some (BinaryData buffer) => (Fulfilled buffer, h)
  | Some (TextData content) =>
      (Fulfilled (nat_of_ascii <$> String.list_ascii_of_string content), h)
  | None => (Rejected (Error "File not found."), h)
  end.

Definition getAvailablePathForAttachment (filename : string) : H string := λ h,
  (Fulfilled (getAvailablePath (files h) filename), h).

(** *** class VaultWriter *)

(** The page loop of [writeMarkdownFile] (lines 162-176). *)
Fixpoint markdown_pages (imgs : option (list TFile)) (filename : string)
    (i : nat) (pages : list Page) (content : string) : string :=
  match pages with
  | [] => content
  | page :: rest =>
      let content := content +:+ "## Page " +:+ JsStr.of_nat (i + 1) +:+ nl +:+ nl in
      let content :=
        if has_text page then content +:+ text page +:+ nl else content in
      let content :=
        match imgs with
        | Some imgs =>
            let subpath :=
              if invertColorsWhenDark settings then "#supernote-invert-dark" else "" in
            let link := generateMarkdownLink (imgs !! i) filename (Some subpath) in
            content +:+ link +:+ nl
        | None => content
        end in
      markdown_pages imgs filename (S i) rest content
  end.

(** Lines 149-179.  [vault.create] is not awaited. *)
Definition writeMarkdownFile (file : TFile) (sn : SupernoteX)
    (imgs : option (list TFile)) : H unit := λ h,
  match filename_loop (S (size (files h))) (files h) file 0 (plain_name file) with
  | None => (Pending, h)
  | Some filename =>
      let content := generateMarkdownLink (Some file) filename None +:+ nl in
      let content := markdown_pages imgs filename 0 (pages sn) content in
      unawaited (Vault_create filename content) h
  end.

(** The loop of [writeImageFiles] (lines 192-198). *)
Fixpoint save_images (file : TFile) (images : list Image) (i : nat)
    (imgs : list TFile) : H (list TFile) :=
  match images with
  | [] => mret imgs
  | image :: rest =>
      filename ← getAvailablePathForAttachment
                   (basename file +:+ "-" +:+ JsStr.of_nat i +:+ ".png");
      buffer ← returned (dataUrlToBuffer atob image);
      img ← Vault_createBinary filename buffer;
      save_images file rest (S i) (imgs ++ [img])
  end.

(** Lines 181-199. *)
Definition writeImageFiles (file : TFile) (sn : SupernoteX) : H (list TFile) :=
  images ← lift (writeImageFiles_convert worker_answer hardwareConcurrency sn);
  save_images file images 0 [].

(** Lines 201-206. *)
Definition attachMarkdownFile (file : TFile) : H unit :=
  note ← Vault_readBinary file;
  sn ← returned (SupernoteX_new note);
  unawaited (writeMarkdownFile file sn None).

(** Lines 208-214. *)
Definition attachNoteFiles (file : TFile) : H unit :=
  note ← Vault_readBinary file;
  sn ← returned (SupernoteX_new note);
  imgs ← writeImageFiles file sn;
  unawaited (writeMarkdownFile file sn (Some imgs)).

(** The page loop of [exportToPDF] (lines 237-251); [sn.pages[i].text] on a
    page that is not there is a TypeError. *)
Fixpoint pdf_pages (sn : SupernoteX) (images : list Image) (i : nat)
    (pdf : list PdfOp) : JsError + list PdfOp :=
  match images with
  | [] => inr pdf
  | image :: rest =>
      let pdf := if decide (0 < i) then pdf ++ [PdfAddPage] else pdf in
      match pages sn !! i with
      | None => inl TypeError
      | Some page =>
          let pdf :=
            if has_text page
            then pdf ++ [PdfSetFontSize 100; PdfSetTextColor 0 0 0 0;
                         PdfText (text page) 20 20 (pageWidth sn);
                         PdfSetTextColor 0 0 0 1]
            else pdf in
          let pdf := pdf ++ [PdfAddImage image 0 0 (pageWidth sn) (pageHeight sn)] in
          pdf_pages sn rest (S i) pdf
      end
  end.

(** Lines 216-257. *)
Definition exportToPDF (file : TFile) : H unit :=
  note ← Vault_readBinary file;
  sn ← returned (SupernoteX_new note);
  let pdf := [PdfNew (pageWidth sn) (pageHeight sn)] in
  images ← lift (exportToPDF_convert worker_answer hardwareConcurrency sn);
  pdf ← returned (pdf_pages sn images 0 pdf);
  filename ← getAvailablePathForAttachment (basename file +:+ ".pdf");
  Vault_createBinary filename (pdf_output pdf);;
  mret ().

(** *** The modals (lines 573-612)

    [MirrorErrorModal.onOpen] writes its text between single quotes: the
    [${...}] in it are not filled in. *)
Definition MirrorErrorModal_open (error : JsError) : H unit :=
  show (ShowMirrorErrorModal mirror_error_text).

Definition ErrorModal_open (error : JsError) : H unit :=
  show (ShowErrorModal ("Error: " +:+ message_of error +:+ ".")).

(** *** The commands of [SupernotePlugin.onload] (lines 411-533) *)

(** Lines 414-420. *)
Definition attach_from_device_callback : H unit :=
  if decide (String.length (mirrorIP settings) = 0)
  then MirrorErrorModal_open (Error "IP is unset")
  else show ShowFileListModal.

(** [workspace.activeEditor?.file] *)
Definition activeEditor_file : H (option TFile) := λ h,
  (Fulfilled (activeEditorFile h), h).

(** [await fetchMirrorFrame(url)] and [image.toBuffer()] *)
Definition fetch_frame (url : string) : H (list nat) :=
  show (FetchMirrorFrame url);;
  returned (fetchMirrorFrame url).

(** Lines 432-454.  [date] is the clock reading [generateTimestamp] takes. *)
Definition insert_mirror_image_callback (date : Date) : H unit :=
  let ts := generateTimestamp date in
  active ← activeEditor_file;
  let f := default "" (basename <$> active) in
  filename ← getAvailablePathForAttachment
               ("supernote-mirror-" +:+ f +:+ "-" +:+ ts +:+ ".png");
  try_catch
    ((if decide (String.length (mirrorIP settings) = 0)
      then throw (A:=unit) (Error "IP is unset, please set in Supernote plugin settings")
      else mret ());;
     image ← fetch_frame (mirrorIP settings +:+ ":8080");
     file ← Vault_createBinary filename image;
     active ← activeEditor_file;
     match path <$> active with
     | Some p =>
         if String.eqb p ""
         then throw (Error "Active file path is null")
         else show (EditorReplaceRange (generateMarkdownLink (Some file) p None))
     | None => throw (Error "Active file path is null")
     end)
    (λ err, MirrorErrorModal_open err).

(** The [checkCallback] the three export commands share (lines 460-481,
    486-507 and 512-533), for the export each of them starts. *)
Definition export_checkCallback (export : TFile → H unit) (checking : bool)
  : H bool := λ h,
  let file := activeFile h in
  let ext := extension <$> file in
  if decide (ext = Some "note")
  then
    if checking then (Fulfilled true, h)
    else
      (try_catch
         (match file with
          | None => throw (Error "No file to attach")
          | Some file => unawaited (export file)
          end)
         (λ err, ErrorModal_open err);;
       mret true) h
  else (Fulfilled false, h).

Definition export_note_as_files_checkCallback : bool → H bool :=
  export_checkCallback attachNoteFiles.

Definition export_note_as_pdf_checkCallback : bool → H bool :=
  export_checkCallback exportToPDF.

Definition export_note_as_markdown_checkCallback : bool → H bool :=
  export_checkCallback attachMarkdownFile.

End Plugin.

(** A host to run the plugin on: base64 is not decoded, links are the path
    of the file, and an attachment goes under [attachments/]. *)
Definition sample_atob (s : string) : JsError + string :=
  if String.eqb s "undefined" then inl (Error "InvalidCharacterError") else inr s.

Definition sample_file_at (p : string) : TFile :=
  {| path := p; name := p; basename := p; extension := "png"; parent := None |}.

Definition sample_link (file : option TFile) (source : string) (subpath : option string)
  : string :=
  "[[" +:+ match file with Some f => path f | None => "undefined" end
       +:+ default "" subpath +:+ "]]".

(** A path no file of the vault has: it is longer than all of theirs. *)
Definition longest_path (fs : gmap string FileData) : nat :=
  max_list (String.length <$> elements (dom fs)).

Definition sample_available (fs : gmap string FileData) (filename : string) : string :=
  JsStr.repeat "_" (S (longest_path fs)) +:+ filename.

Definition sample_file : TFile :=
  {| path := "notes/meeting.note"; name := "meeting.note"; basename := "meeting";
     extension := "note"; parent := Some "notes" |}.

Definition sample_host (fs : gmap string FileData) : Host :=
  {| world := empty_world; files := fs; screen := [];
     activeFile := Some sample_file; activeEditorFile := Some sample_file |}.

(** The workers alive all come from the supply of the world. *)
Definition world_ok (σ : World) : Prop := ∀ w, w ∈ live σ → w < next_worker σ.

(** An image the host can decode. *)
Definition decodable (atob : string → JsError + string) (image : Image) : Prop :=
  ∃ buffer, dataUrlToBuffer atob image = inr buffer.

(** A worker that renders: it answers every chunk of the note with one
    decodable image per page and no error. *)
Definition renders (worker_answer : WorkerId → SupernoteX → list Z → WorkerReply)
    (atob : string → JsError + string) (sn : SupernoteX) : Prop :=
  ∀ w chunk, ∃ data,
    worker_answer w sn chunk = Message data ∧
    truthy (error data) = false ∧
    length (images data) = length chunk ∧
    Forall (decodable atob) (images data).

(** A worker whose images are data URLs, the same for every page. *)
Definition url_worker (w : WorkerId) (sn : SupernoteX) (chunk : list Z) : WorkerReply :=
  Message {| images := (λ _, "data:image/png;base64,QUJD") <$> chunk;
             error := None |}.

(** A vault that holds the sample note, and the parser that reads a note of
    [n] pages out of anything. *)
Definition sample_vault : gmap string FileData :=
  {[ "notes/meeting.note" := BinaryData [1; 2; 3] ]}.

Definition sample_parser (n : nat) (bytes : list nat) : JsError + SupernoteX :=
  inr (sample_note n).

(** The pages of a document, as the calls on it lay them out: the images
    put on each page, a call of [addPage] starting the next page. *)
Definition pdf_step (layout : list (list Image) * list Image) (op : PdfOp)
  : list (list Image) * list Image :=
  match op with
  | PdfAddPage => (layout.1 ++ [layout.2], [])
  | PdfAddImage image _ _ _ _ => (layout.1, layout.2 ++ [image])
  | _ => layout
  end.

Definition pdf_layout (ops : list PdfOp) : list (list Image) :=
  let '(finished, current) := foldl pdf_step ([], []) ops in
  finished ++ [current].


(** ** Arithmetic of the ceiling *)

Section Ceil.

Lemma ceil_nat_lt (a b k : nat) : 0 < b → k * b < a ↔ k < Js.ceil_nat a b.
Proof.
  intros Hb. unfold Js.ceil_nat.
  pose proof (Nat.div_mod_eq a b) as Hdm.
  pose proof (Nat.mod_upper_bound a b ltac:(lia)) as Hr.
  destruct (Nat.eqb_spec (a mod b) 0) as [E|E]; split; intros H; nia.
Qed.

Lemma ceil_nat_upper (a b : nat) : 0 < b → a ≤ Js.ceil_nat a b * b.
Proof.
  intros Hb. destruct (Nat.le_gt_cases a (Js.ceil_nat a b * b)) as [|H]; [done|].
  apply ceil_nat_lt in H; lia.
Qed.

Lemma ceil_nat_pos (a b : nat) : 0 < b → 0 < a → 0 < Js.ceil_nat a b.
Proof. intros Hb Ha. apply ceil_nat_lt; lia. Qed.

Lemma ceil_nat_0 (b : nat) : 0 < b → Js.ceil_nat 0 b = 0.
Proof.
  intros Hb. destruct (Js.ceil_nat 0 b) eqn:E; [done|].
  assert (0 * b < 0) by (apply ceil_nat_lt; lia). lia.
Qed.

(** The least multiple: the ceiling is the smallest [c] with [a ≤ c * b]. *)
Lemma ceil_nat_least (a b c : nat) : 0 < b → a ≤ c * b → Js.ceil_nat a b ≤ c.
Proof.
  intros Hb H. destruct (Nat.le_gt_cases (Js.ceil_nat a b) c) as [|Hlt]; [done|].
  apply ceil_nat_lt in Hlt; lia.
Qed.

(** Cutting [n] items into pieces of [ceil (n / p)] makes at most [p] pieces. *)
Lemma ceil_nat_twice (n p : nat) :
  0 < p → Js.ceil_nat n (Js.ceil_nat n p) ≤ p.
Proof.
  intros Hp. destruct n as [|n].
  - rewrite (ceil_nat_0 p) by lia. unfold Js.ceil_nat. simpl. lia.
  - apply ceil_nat_least.
    + apply ceil_nat_pos; lia.
    + pose proof (ceil_nat_upper (S n) p Hp). lia.
Qed.

End Ceil.

(** ** The chunking loop *)

Section Chunking.

Variable allPageNumbers : list Z.

(** The slice of one round, whatever the counter. *)
Lemma slice_fin (a c : nat) :
  Js.slice allPageNumbers (Js.Fin a) (Js.add (Js.Fin a) (Js.Fin c))
  = take c (drop a allPageNumbers).
Proof.
  unfold Js.slice. simpl.
  destruct (Nat.le_gt_cases (length allPageNumbers) a) as [Hge|Hlt].
  - rewrite Nat.min_r by lia. rewrite !drop_ge by lia. by rewrite !take_nil.
  - rewrite (Nat.min_l a) by lia.
    destruct (Nat.le_gt_cases (a + c) (length allPageNumbers)) as [Hin|Hout].
    + rewrite Nat.min_l by lia. f_equal. lia.
    + rewrite Nat.min_r by lia.
      rewrite !take_ge; [done| |]; rewrite length_drop; lia.
Qed.

Lemma chunk_loop_fin (c : nat) :
  0 < c →
  ∀ fuel k chunks,
    k ≤ Js.ceil_nat (length allPageNumbers) c →
    Js.ceil_nat (length allPageNumbers) c - k < fuel →
    chunk_loop fuel allPageNumbers (Js.Fin c) (Js.Fin (k * c)) chunks
    = Some (chunks ++ (nth_chunk allPageNumbers c <$> seq k (Js.ceil_nat (length allPageNumbers) c - k))).
Proof.
  intros Hc. set (m := Js.ceil_nat (length allPageNumbers) c).
  induction fuel as [|fuel IH]; intros k chunks Hk Hfuel; [lia|].
  cbn [chunk_loop Js.ltb].
  destruct (Nat.ltb_spec (k * c) (length allPageNumbers)) as [Hlt|Hge].
  - assert (k < m) as Hkm by (by apply ceil_nat_lt).
    rewrite slice_fin. change (Js.add (Js.Fin (k * c)) (Js.Fin c)) with (Js.Fin (k * c + c)).
    replace (k * c + c) with (S k * c) by lia.
    rewrite IH by lia. f_equal.
    replace (m - k) with (S (m - S k)) by lia.
    cbn [seq fmap list_fmap]. by rewrite <- app_assoc.
  - assert (¬ k < m) as Hkm by (intros H; apply ceil_nat_lt in H; lia).
    replace (m - k) with 0 by lia. cbn. by rewrite app_nil_r.
Qed.

Lemma chunk_loop_fin_0 (c fuel : nat) :
  0 < c →
  Js.ceil_nat (length allPageNumbers) c < fuel →
  chunk_loop fuel allPageNumbers (Js.Fin c) (Js.Fin 0) []
  = Some (nth_chunk allPageNumbers c <$> seq 0 (Js.ceil_nat (length allPageNumbers) c)).
Proof.
  intros Hc Hfuel.
  pose proof (chunk_loop_fin c Hc fuel 0 []) as Hfin.
  rewrite Nat.sub_0_r in Hfin. apply Hfin; lia.
Qed.

Lemma concat_nth_chunks (c : nat) :
  ∀ d k, length allPageNumbers ≤ (k + d) * c →
    concat (nth_chunk allPageNumbers c <$> seq k d) = drop (k * c) allPageNumbers.
Proof.
  induction d as [|d IH]; intros k Hlen.
  - cbn. rewrite drop_ge; [done|lia].
  - cbn [seq fmap list_fmap concat]. rewrite IH by lia.
    unfold nth_chunk. replace (S k * c) with (k * c + c) by lia.
    rewrite <- drop_drop. apply take_drop.
Qed.

(** Fuel beyond what the loop needs changes nothing. *)
Lemma chunk_loop_more_fuel (chunkSize : Js.Num) :
  ∀ fuel fuel' i chunks result,
    chunk_loop fuel allPageNumbers chunkSize i chunks = Some result →
    fuel ≤ fuel' →
    chunk_loop fuel' allPageNumbers chunkSize i chunks = Some result.
Proof.
  induction fuel as [|fuel IH]; intros fuel' i chunks result Hrun Hle; [done|].
  destruct fuel' as [|fuel']; [lia|].
  cbn [chunk_loop] in *.
  destruct (Js.ltb i (length allPageNumbers)); [|done].
  apply IH; [done|lia].
Qed.

(** A [chunkSize] of 0 never leaves the loop once it is entered. *)
Lemma chunk_loop_zero_spins :
  0 < length allPageNumbers →
  ∀ fuel chunks,
    chunk_loop fuel allPageNumbers (Js.Fin 0) (Js.Fin 0) chunks = None.
Proof.
  intros Hpos. induction fuel as [|fuel IH]; intros chunks; [done|].
  cbn [chunk_loop Js.ltb].
  destruct (Nat.ltb_spec 0 (length allPageNumbers)); [|lia].
  apply IH.
Qed.

(** The fuel [processPages] is given is enough for every [chunkSize]: a run
    that ends at all ends within it. *)
Lemma chunk_loop_fuel_enough (chunkSize : Js.Num) (fuel : nat) result :
  chunk_loop fuel allPageNumbers chunkSize (Js.Fin 0) [] = Some result →
  chunk_loop (S (length allPageNumbers)) allPageNumbers chunkSize (Js.Fin 0) []
  = Some result.
Proof.
  intros Hrun.
  destruct (Nat.le_gt_cases fuel (S (length allPageNumbers))) as [Hle|Hgt].
  { by eapply chunk_loop_more_fuel. }
  destruct (length allPageNumbers) as [|n] eqn:Hlen.
  { destruct fuel as [|fuel]; [lia|].
    cbn [chunk_loop Js.ltb] in *. by rewrite Hlen in *. }
  destruct chunkSize as [[|c]| |].
  - rewrite chunk_loop_zero_spins in Hrun; [done|lia].
  - assert (Js.ceil_nat (length allPageNumbers) (S c) ≤ length allPageNumbers) as Hm.
    { apply ceil_nat_least; lia. }
    rewrite chunk_loop_fin_0 in Hrun by lia.
    rewrite <- Hlen. rewrite chunk_loop_fin_0 by lia. done.
  - destruct fuel as [|[|fuel]]; [lia|lia|].
    rewrite <- Hrun. cbn [chunk_loop Js.ltb Js.add]. by rewrite Hlen.
  - destruct fuel as [|[|fuel]]; [lia|lia|].
    rewrite <- Hrun. cbn [chunk_loop Js.ltb Js.add]. by rewrite Hlen.
Qed.

(** What [chunks_of] computes for a pool that is not empty. *)
Lemma chunks_of_fin (nworkers : nat) :
  0 < nworkers →
  ∀ c, c = Js.ceil_nat (length allPageNumbers) nworkers →
  chunks_of nworkers allPageNumbers
  = Some (nth_chunk allPageNumbers c <$> seq 0 (Js.ceil_nat (length allPageNumbers) c)).
Proof.
  intros Hn c ->. unfold chunks_of, chunkSize_of, Js.ceil_div.
  destruct nworkers as [|p]; [lia|].
  set (c := Js.ceil_nat (length allPageNumbers) (S p)).
  destruct (length allPageNumbers) as [|n] eqn:Hlen.
  - subst c. rewrite ceil_nat_0 by lia. cbn. by rewrite Hlen.
  - assert (0 < c) as Hc by (apply ceil_nat_pos; lia).
    rewrite <- Hlen.
    assert (Js.ceil_nat (length allPageNumbers) c ≤ length allPageNumbers) as Hm.
    { apply ceil_nat_least; nia. }
    apply chunk_loop_fin_0; lia.
Qed.

End Chunking.

(** C2: for a pool of at least one worker, the chunking step of
    [processPages] cuts the index list into contiguous slices of
    [chunkSize = ceil (len / poolSize)] indices, the last one possibly
    shorter; it makes at most [poolSize] chunks, none of them empty (so no
    chunk at all for an empty list), and the chunks concatenated in order
    are the index list. *)
Theorem C2_chunking (indices : list Z) (poolSize : nat) :
  1 ≤ poolSize →
  ∃ (chunkSize : nat) (chunks : list (list Z)),
    chunkSize_of poolSize indices = Js.Fin chunkSize ∧
    (length indices ≤ chunkSize * poolSize ∧
     ∀ c, length indices ≤ c * poolSize → chunkSize ≤ c) ∧
    chunks_of poolSize indices = Some chunks ∧
    (∀ k chunk, chunks !! k = Some chunk →
       chunk = take chunkSize (drop (k * chunkSize) indices) ∧
       1 ≤ length chunk ≤ chunkSize ∧
       (S k < length chunks → length chunk = chunkSize)) ∧
    length chunks ≤ poolSize ∧
    (indices = [] → chunks = []) ∧
    concat chunks = indices.
Proof.
  intros Hp.
  set (c := Js.ceil_nat (length indices) poolSize).
  set (m := Js.ceil_nat (length indices) c).
  exists c, (nth_chunk indices c <$> seq 0 m).
  assert (length indices ≤ c * poolSize) as Hupper by (apply ceil_nat_upper; lia).
  assert (c = 0 → indices = []) as Hc0.
  { intros E. apply length_zero_iff_nil. lia. }
  assert (m ≤ poolSize) as Hm by (apply ceil_nat_twice; lia).
  split_and!.
  - unfold chunkSize_of, Js.ceil_div. by destruct poolSize; [lia|].
  - done.
  - intros c' Hc'. apply ceil_nat_least; [lia|done].
  - apply chunks_of_fin; [lia|done].
  - intros k chunk Hk. rewrite list_lookup_fmap in Hk.
    destruct (seq 0 m !! k) as [j|] eqn:Hj; [|done].
    apply lookup_seq in Hj as [-> Hkm]. cbn in Hk. injection Hk as <-.
    rewrite length_fmap, length_seq.
    assert (0 < c) as Hc.
    { destruct c; [|lia]. subst m. rewrite (Hc0 eq_refl) in Hkm. cbn in Hkm. lia. }
    assert (k * c < length indices) as Hlt by (by apply ceil_nat_lt).
    unfold nth_chunk. rewrite length_take, length_drop.
    split_and!; [done|lia|lia|].
    intros Hnext. assert (S k * c < length indices) by (apply ceil_nat_lt; lia). lia.
  - by rewrite length_fmap, length_seq.
  - intros ->. subst m c. cbn. rewrite ceil_nat_0 by lia. done.
  - destruct (decide (c = 0)) as [E|E].
    + rewrite (Hc0 E). subst m. rewrite E. rewrite (Hc0 E). done.
    + rewrite concat_nth_chunks; [by rewrite drop_0|].
      apply ceil_nat_upper. lia.
Qed.

Lemma C2_chunking_witness :
  ∃ (chunkSize : nat) (chunks : list (list Z)),
    chunkSize_of 4 [1; 2; 3; 4; 5; 6; 7]%Z = Js.Fin chunkSize ∧
    (length [1; 2; 3; 4; 5; 6; 7]%Z ≤ chunkSize * 4 ∧
     ∀ c, length [1; 2; 3; 4; 5; 6; 7]%Z ≤ c * 4 → chunkSize ≤ c) ∧
    chunks_of 4 [1; 2; 3; 4; 5; 6; 7]%Z = Some chunks ∧
    (∀ k chunk, chunks !! k = Some chunk →
       chunk = take chunkSize (drop (k * chunkSize) [1; 2; 3; 4; 5; 6; 7]%Z) ∧
       1 ≤ length chunk ≤ chunkSize ∧
       (S k < length chunks → length chunk = chunkSize)) ∧
    length chunks ≤ 4 ∧
    ([1; 2; 3; 4; 5; 6; 7]%Z = [] → chunks = []) ∧
    concat chunks = [1; 2; 3; 4; 5; 6; 7]%Z.
Proof. apply (C2_chunking [1; 2; 3; 4; 5; 6; 7]%Z 4). lia. Defined.

(** Scenario A of the specification: seven pages on four workers. *)
Example scenario_A_chunks :
  chunkSize_of 4 [1; 2; 3; 4; 5; 6; 7]%Z = Js.Fin 2 ∧
  chunks_of 4 [1; 2; 3; 4; 5; 6; 7]%Z
  = Some [[1; 2]; [3; 4]; [5; 6]; [7]]%Z.
Proof. split; reflexivity. Qed.

(** On a pool without workers the ceiling is not a number any more. *)
Example chunking_without_workers :
  chunkSize_of 0 [1; 2; 3]%Z = Js.Infinity ∧
  chunks_of 0 [1; 2; 3]%Z = Some [[1; 2; 3]%Z] ∧
  chunkSize_of 0 [] = Js.NaN ∧
  chunks_of 0 [] = Some [].
Proof. split_and!; reflexivity. Qed.

(** ** Worlds and runs *)

Lemma with_log_nil (σ : World) : with_log σ [] = σ.
Proof. destruct σ. unfold with_log. cbn. by rewrite app_nil_r. Qed.

Lemma with_log_app (σ : World) (evs evs' : list Event) :
  with_log (with_log σ evs) evs' = with_log σ (evs ++ evs').
Proof. unfold with_log. cbn. by rewrite app_assoc. Qed.

(** [Array(n).fill(null).map(() => new Worker())] makes the next [n]
    workers, in order. *)
Lemma new_workers_run (n : nat) :
  ∀ (index : nat) (σ : World),
    Array_map_from (λ _ _, Worker_new) (replicate n ()) index σ
    = (Fulfilled (seq (next_worker σ) n),
       {| next_worker := next_worker σ + n; next_pool := next_pool σ;
          live := list_to_set (seq (next_worker σ) n) ∪ live σ;
          log := log σ ++ (NewWorker <$> seq (next_worker σ) n) |}).
Proof.
  induction n as [|n IH]; intros index σ.
  - cbn. unfold mret, M_ret. f_equal. destruct σ; cbn. f_equal.
    + lia.
    + set_solver.
    + by rewrite app_nil_r.
  - cbn [replicate Array_map_from]. unfold mbind, M_bind at 1.
    cbn [Worker_new]. unfold mbind, M_bind at 1. rewrite IH. cbn.
    unfold mret, M_ret. f_equal. f_equal.
    + lia.
    + set_solver.
    + by rewrite <- app_assoc.
Qed.

Lemma WorkerPool_new_run (n : nat) (σ : World) :
  WorkerPool_new n σ
  = (Fulfilled {| pool_id := next_pool σ; maxWorkers := n;
                  workers := seq (next_worker σ) n |},
     {| next_worker := next_worker σ + n; next_pool := S (next_pool σ);
        live := list_to_set (seq (next_worker σ) n) ∪ live σ;
        log := log σ ++ NewPool (next_pool σ) :: (NewWorker <$> seq (next_worker σ) n) |}).
Proof.
  unfold WorkerPool_new, Array_map, mbind, M_bind, fresh_pool.
  rewrite new_workers_run. cbn. unfold mret, M_ret. f_equal. f_equal.
  by rewrite <- app_assoc.
Qed.

Lemma forEach_terminate_run (ws : list WorkerId) :
  ∀ σ : World,
    Array_forEach Worker_terminate ws σ
    = (Fulfilled (),
       {| next_worker := next_worker σ; next_pool := next_pool σ;
          live := live σ ∖ list_to_set ws;
          log := log σ ++ (WorkerTerminate <$> ws) |}).
Proof.
  induction ws as [|w ws IH]; intros σ.
  - cbn. unfold mret, M_ret. f_equal. destruct σ; cbn. f_equal.
    + set_solver.
    + by rewrite app_nil_r.
  - cbn [Array_forEach]. unfold mbind, M_bind. cbn [Worker_terminate].
    rewrite IH. cbn. f_equal. f_equal.
    + set_solver.
    + by rewrite <- app_assoc.
Qed.

Lemma WorkerPool_terminate_run (this : WorkerPool) (σ : World) :
  WorkerPool_terminate this σ
  = (Fulfilled {| pool_id := pool_id this; maxWorkers := maxWorkers this;
                  workers := [] |},
     {| next_worker := next_worker σ; next_pool := next_pool σ;
        live := live σ ∖ list_to_set (workers this);
        log := log σ ++ PoolTerminate (pool_id this)
                        :: (WorkerTerminate <$> workers this) |}).
Proof.
  unfold WorkerPool_terminate, mbind, M_bind, emit.
  rewrite forEach_terminate_run. cbn. unfold mret, M_ret. f_equal. f_equal.
  by rewrite <- app_assoc.
Qed.

Section Runs.

Variable worker_answer : WorkerId → SupernoteX → list Z → WorkerReply.

(** The dispatch of lines 107-109: one promise per chunk, one message per
    chunk whose worker exists. *)
Lemma dispatch_run (ws : list WorkerId) (sn : SupernoteX) (chunks : list (list Z)) :
  ∀ (index : nat) (σ : World),
    Array_map_from (λ chunk index,
        processChunk (Js.index ws (Js.rem index (length ws))) sn chunk)
      chunks index σ
    = (Fulfilled (imap (λ k, promise_of ws (index + k)) chunks),
       with_log σ (concat (imap (λ k, post_of ws sn (index + k)) chunks))).
Proof.
  induction chunks as [|chunk chunks IH]; intros index σ.
  - cbn. by rewrite with_log_nil.
  - cbn [Array_map_from]. unfold mbind, M_bind at 1.
    assert (processChunk (Js.index ws (Js.rem index (length ws))) sn chunk σ
            = (Fulfilled (promise_of ws index chunk),
               with_log σ (post_of ws sn index chunk))) as ->.
    { unfold processChunk, promise_of, post_of, dispatch_worker.
      destruct (Js.index ws (Js.rem index (length ws))); cbn.
      - done.
      - by rewrite with_log_nil. }
    unfold mbind, M_bind. rewrite IH. cbn [mret M_ret].
    rewrite with_log_app. rewrite !imap_cons. cbn [concat].
    rewrite Nat.add_0_r. unfold mret, M_ret. f_equal; [f_equal|f_equal; f_equal].
    + f_equal. apply imap_ext. intros k c _. cbn. f_equal. lia.
    + f_equal. apply imap_ext. intros k c _. cbn. f_equal. lia.
Qed.

(** [processPages], with the loop and the dispatch computed. *)
Lemma processPages_run (this : WorkerPool) (sn : SupernoteX)
    (allPageNumbers : list Z) (σ : World) :
  processPages worker_answer this sn allPageNumbers σ
  = match chunks_of (length (workers this)) allPageNumbers with
    | None => (Pending, σ)
    | Some chunks =>
        let promises := imap (promise_of (workers this)) chunks in
        (Js.flat <$> Promise_all (imap (settle worker_answer sn promises) promises),
         with_log σ (concat (imap (post_of (workers this) sn) chunks)))
    end.
Proof.
  unfold processPages, chunks_of, chunkSize_of.
  destruct (chunk_loop _ _ _ _ _) as [chunks|]; [|done].
  unfold Array_map, mbind, M_bind at 1. rewrite dispatch_run. cbn [Nat.add].
  unfold mbind, M_bind, await. cbv zeta.
  destruct (Promise_all _); done.
Qed.

End Runs.

(** ** [Promise.all] *)

Section PromiseAll.

Context {A : Type}.
Implicit Types (ps : list (Outcome A)) (values : list A).

Lemma all_fulfilled_Some ps values :
  all_fulfilled ps = Some values ↔ ps = Fulfilled <$> values.
Proof.
  revert values. induction ps as [|[a|e|] ps IH]; intros values; cbn.
  - split; [intros [= <-]; done|]. by destruct values.
  - destruct (all_fulfilled ps) as [vs|] eqn:E; cbn.
    + split.
      * intros [= <-]. cbn. f_equal. by apply IH.
      * destruct values as [|v values]; [done|]. cbn. intros [= -> H].
        apply IH in H. by injection H as ->.
    + split; [done|]. destruct values as [|v values]; [done|]. cbn.
      intros [= -> H]. by apply IH in H.
  - split; [done|]. by destruct values.
  - split; [done|]. by destruct values.
Qed.

Lemma first_rejection_Some ps e :
  first_rejection ps = Some e → Rejected e ∈ ps.
Proof.
  induction ps as [|[a|e'|] ps IH]; cbn; [done| | |].
  - intros H. right. by apply IH.
  - intros [= ->]. left.
  - intros H. right. by apply IH.
Qed.

Lemma first_rejection_None ps :
  first_rejection ps = None ↔ ∀ e, Rejected e ∉ ps.
Proof.
  induction ps as [|[a|e'|] ps IH]; cbn.
  - split; [|done]. intros _ e H. by apply elem_of_nil in H.
  - rewrite IH. split.
    + intros H e He. apply elem_of_cons in He as [?|He]; [done|]. by eapply H.
    + intros H e He. eapply H. by right.
  - split; [done|]. intros H. exfalso. eapply H. left.
  - rewrite IH. split.
    + intros H e He. apply elem_of_cons in He as [?|He]; [done|]. by eapply H.
    + intros H e He. eapply H. by right.
Qed.

Lemma Promise_all_Fulfilled ps values :
  Promise_all ps = Fulfilled values ↔ ps = Fulfilled <$> values.
Proof.
  unfold Promise_all. split.
  - destruct (first_rejection ps); [done|].
    destruct (all_fulfilled ps) as [vs|] eqn:E; [|done].
    intros [= <-]. by apply all_fulfilled_Some.
  - intros ->.
    assert (first_rejection (Fulfilled <$> values) = None) as ->.
    { apply first_rejection_None. intros e He.
      apply list_elem_of_fmap in He as (v & ? & _). done. }
    assert (all_fulfilled (Fulfilled <$> values) = Some values) as ->;
      [by apply all_fulfilled_Some|done].
Qed.

Lemma Promise_all_Rejected ps e :
  Promise_all ps = Rejected e → Rejected e ∈ ps.
Proof.
  unfold Promise_all. destruct (first_rejection ps) as [e'|] eqn:E.
  - intros [= <-]. by apply first_rejection_Some.
  - by destruct (all_fulfilled ps).
Qed.


(** Nothing pending among the promises: the whole is settled. *)
Lemma Promise_all_settled ps :
  Pending ∉ ps → Promise_all ps ≠ Pending.
Proof.
  unfold Promise_all. destruct (first_rejection ps) as [e'|] eqn:E; [done|].
  intros Hp. destruct (all_fulfilled ps) eqn:E'; [done|]. exfalso.
  induction ps as [|[a|e|] ps IH]; cbn in *; [done| | |].
  - destruct (all_fulfilled ps); [done|]. apply IH; [done| |done].
    intros H. apply Hp. by right.
  - done.
  - apply Hp. left.
Qed.

End PromiseAll.

(** ** Dispatch on a pool that holds workers *)

Lemma dispatch_worker_in_range (ws : list WorkerId) (index : nat) :
  index < length ws → dispatch_worker ws index = ws !! index.
Proof.
  intros Hlt. unfold dispatch_worker, Js.rem.
  destruct (length ws) as [|n] eqn:E; [lia|].
  unfold Js.index. by rewrite Nat.mod_small by lia.
Qed.

Lemma dispatch_worker_empty (index : nat) : dispatch_worker [] index = None.
Proof. done. Qed.

Lemma promises_live (ws : list WorkerId) (chunks : list (list Z)) :
  length chunks ≤ length ws →
  imap (promise_of ws) chunks = zip_with Waiting ws chunks.
Proof.
  intros Hlen. apply list_eq. intros k.
  rewrite list_lookup_imap, lookup_zip_with.
  destruct (chunks !! k) as [chunk|] eqn:Hk; cbn.
  - apply lookup_lt_Some in Hk as Hlt.
    unfold promise_of. rewrite dispatch_worker_in_range by lia.
    destruct (lookup_lt_is_Some_2 ws k ltac:(lia)) as [w ->]. done.
  - by destruct (ws !! k).
Qed.

Lemma concat_singletons {B : Type} (l : list B) : concat ((λ x, [x]) <$> l) = l.
Proof. induction l as [|x l IH]; cbn; [done|by rewrite IH]. Qed.

Lemma posts_live (ws : list WorkerId) (sn : SupernoteX) (chunks : list (list Z)) :
  length chunks ≤ length ws →
  concat (imap (post_of ws sn) chunks)
  = zip_with (λ w chunk, PostMessage w (convert_message sn chunk)) ws chunks.
Proof.
  intros Hlen.
  rewrite <- (concat_singletons (zip_with _ ws chunks)). f_equal.
  apply list_eq. intros k.
  rewrite list_lookup_imap, list_lookup_fmap, lookup_zip_with.
  destruct (chunks !! k) as [chunk|] eqn:Hk; cbn.
  - apply lookup_lt_Some in Hk as Hlt.
    unfold post_of. rewrite dispatch_worker_in_range by lia.
    destruct (lookup_lt_is_Some_2 ws k ltac:(lia)) as [w ->]. done.
  - by destruct (ws !! k).
Qed.

Lemma waiting_on_zip (ws : list WorkerId) :
  ∀ chunks : list (list Z),
    omap waiting_on (zip_with Waiting ws chunks) = take (length chunks) ws.
Proof.
  induction ws as [|w ws IH]; intros [|chunk chunks]; cbn; try done.
  by rewrite IH.
Qed.

Lemma posted_to_none (w : WorkerId) (promises : list Promise) :
  w ∉ omap waiting_on promises → omap (posted_to w) promises = [].
Proof.
  induction promises as [|[e|w' c] promises IH]; cbn; [done|done|].
  intros Hnotin. apply not_elem_of_cons in Hnotin as [Hne Hnotin].
  destruct (decide (w = w')); [done|]. by apply IH.
Qed.

Section Settle.

Variable worker_answer : WorkerId → SupernoteX → list Z → WorkerReply.
Variable sn : SupernoteX.

(** When no two promises wait on the same worker, each promise is settled
    by the answer to its own chunk. *)
Lemma settle_own (promises : list Promise) (k : nat) (w : WorkerId) (chunk : list Z) :
  NoDup (omap waiting_on promises) →
  promises !! k = Some (Waiting w chunk) →
  settle worker_answer sn promises k (Waiting w chunk)
  = deliver (worker_answer w sn chunk).
Proof.
  intros Hnodup Hk.
  pose proof (take_drop_middle promises k _ Hk) as Hsplit.
  rewrite <- Hsplit in Hnodup. rewrite omap_app in Hnodup. cbn in Hnodup.
  apply NoDup_app in Hnodup as (_ & Hbefore & Hafter).
  apply NoDup_cons in Hafter as [Hafter _].
  assert (w ∉ omap waiting_on (take k promises)) as Hb.
  { intros Hin. apply (Hbefore w Hin). left. }
  unfold settle. rewrite (posted_to_none w (drop (S k) promises)) by done.
  rewrite <- Hsplit at 1. rewrite omap_app. cbn.
  rewrite (posted_to_none w (take k promises)) by done.
  by rewrite decide_True by done.
Qed.

Lemma settle_live (ws : list WorkerId) (chunks : list (list Z)) :
  NoDup ws →
  let promises := zip_with Waiting ws chunks in
  imap (settle worker_answer sn promises) promises
  = zip_with (λ w chunk, deliver (worker_answer w sn chunk)) ws chunks.
Proof.
  intros Hnodup promises.
  assert (NoDup (omap waiting_on promises)) as Hp.
  { unfold promises. rewrite waiting_on_zip.
    eapply sublist_NoDup; [done|apply sublist_take]. }
  apply list_eq. intros k. rewrite list_lookup_imap.
  assert (promises !! k
          = (w ← ws !! k; chunk ← chunks !! k; Some (Waiting w chunk))) as Hk.
  { unfold promises. apply lookup_zip_with. }
  rewrite lookup_zip_with.
  destruct (ws !! k) as [w|]; cbn in *; [|by rewrite Hk].
  destruct (chunks !! k) as [chunk|]; cbn in *; [|by rewrite Hk].
  rewrite Hk. cbn. f_equal. by apply settle_own.
Qed.

End Settle.

(** ** [processPages] on the two kinds of pool *)

Lemma chunks_of_live (p : nat) (allPageNumbers : list Z) :
  0 < p →
  ∃ chunks,
    chunks_of p allPageNumbers = Some chunks ∧
    length chunks
    = Js.ceil_nat (length allPageNumbers) (Js.ceil_nat (length allPageNumbers) p) ∧
    length chunks ≤ p ∧
    concat chunks = allPageNumbers.
Proof.
  intros Hp. set (c := Js.ceil_nat (length allPageNumbers) p).
  exists (nth_chunk allPageNumbers c <$> seq 0 (Js.ceil_nat (length allPageNumbers) c)).
  split_and!.
  - by apply chunks_of_fin.
  - by rewrite length_fmap, length_seq.
  - rewrite length_fmap, length_seq. by apply ceil_nat_twice.
  - destruct (decide (length allPageNumbers = 0)) as [E|E].
    + apply length_zero_iff_nil in E. subst allPageNumbers c. cbn.
      by rewrite ceil_nat_0 by lia.
    + rewrite concat_nth_chunks; [by rewrite drop_0|].
      apply ceil_nat_upper. apply ceil_nat_pos; lia.
Qed.

Lemma chunks_of_terminated (allPageNumbers : list Z) :
  chunks_of 0 allPageNumbers
  = Some (match allPageNumbers with [] => [] | _ :: _ => [allPageNumbers] end).
Proof.
  destruct allPageNumbers as [|x l]; [done|].
  unfold chunks_of, chunkSize_of. cbn -[take drop Js.slice].
  unfold Js.slice. cbn -[take]. by rewrite take_ge by (cbn; lia).
Qed.

Lemma deliver_not_pending (r : WorkerReply) : deliver r ≠ Pending.
Proof.
  destruct r as [data|detail]; cbn; [|done].
  unfold onmessage. by destruct (truthy (error data)).
Qed.

Section Pool.

Variable worker_answer : WorkerId → SupernoteX → list Z → WorkerReply.
Variable sn : SupernoteX.

Lemma answers_not_pending (ws : list WorkerId) (chunks : list (list Z)) :
  Pending ∉ answers worker_answer sn ws chunks.
Proof.
  intros Hin. apply list_elem_of_lookup in Hin as [k Hk].
  unfold answers in Hk. rewrite lookup_zip_with in Hk.
  destruct (ws !! k) as [w|]; [|done]. cbn in Hk.
  destruct (chunks !! k) as [chunk|]; [|done]. cbn in Hk.
  injection Hk as Hk. by eapply deliver_not_pending.
Qed.


(** Fulfilled answers pair off with the chunks, one batch per chunk. *)
Lemma answers_fulfilled (ws : list WorkerId) :
  ∀ (chunks : list (list Z)) (results : list (list Image)),
    length chunks ≤ length ws →
    answers worker_answer sn ws chunks = Fulfilled <$> results →
    Forall2 (λ batch chunk,
        ∃ w, w ∈ ws ∧ deliver (worker_answer w sn chunk) = Fulfilled batch)
      results chunks.
Proof.
  induction ws as [|w ws IH]; intros [|chunk chunks] [|batch results] Hlen Heq;
    cbn in *; try done; try lia.
  injection Heq as Hhd Htl. constructor.
  - exists w. split; [left|done].
  - eapply Forall2_impl; [apply IH; [lia|done]|].
    cbn. intros b c (w' & Hin & Hd). exists w'. split; [by right|done].
Qed.

(** A pool that holds workers: the chunks go to the first workers, one
    each, and every promise is settled by the answer to its own chunk. *)
Lemma processPages_live (this : WorkerPool) (allPageNumbers : list Z) (σ : World) :
  pool_ok this → 0 < length (workers this) →
  ∃ chunks,
    chunks_of (length (workers this)) allPageNumbers = Some chunks ∧
    length chunks ≤ length (workers this) ∧
    concat chunks = allPageNumbers ∧
    processPages worker_answer this sn allPageNumbers σ
    = (Js.flat <$> Promise_all (answers worker_answer sn (workers this) chunks),
       with_log σ (posts sn (workers this) chunks)).
Proof.
  intros Hok Hlive.
  destruct (chunks_of_live _ allPageNumbers Hlive) as (chunks & Hchunks & _ & Hlen & Hcat).
  exists chunks. split_and!; try done.
  rewrite processPages_run, Hchunks. cbv zeta.
  rewrite promises_live, posts_live by done.
  by rewrite settle_live.
Qed.

(** A pool without workers: nothing is sent; a list that is not empty
    makes one chunk, whose worker is [undefined]. *)
Lemma processPages_terminated (this : WorkerPool) (allPageNumbers : list Z) (σ : World) :
  workers this = [] →
  processPages worker_answer this sn allPageNumbers σ
  = (match allPageNumbers with
     | [] => Fulfilled []
     | _ :: _ => Rejected TypeError
     end, σ).
Proof.
  intros Hws. rewrite processPages_run, Hws. cbn [length].
  rewrite chunks_of_terminated.
  destruct allPageNumbers as [|x l]; cbn; by rewrite with_log_nil.
Qed.

End Pool.

Lemma WorkerPool_new_ok (n : nat) (σ : World) :
  ∃ this σ', WorkerPool_new n σ = (Fulfilled this, σ') ∧ pool_ok this ∧
    workers this = seq (next_worker σ) n.
Proof.
  rewrite WorkerPool_new_run. eexists _, _. split; [done|].
  split; [apply NoDup_seq|done].
Qed.

Lemma WorkerPool_terminate_ok (this : WorkerPool) (σ : World) :
  ∃ this' σ', WorkerPool_terminate this σ = (Fulfilled this', σ') ∧ pool_ok this' ∧
    workers this' = [].
Proof.
  rewrite WorkerPool_terminate_run. eexists _, _. split; [done|].
  split; [apply NoDup_nil_2|done].
Qed.

(** ** [convertToImages] *)

Lemma convertToImages_run
    (worker_answer : WorkerId → SupernoteX → list Z → WorkerReply)
    (this : ImageConverter) (sn : SupernoteX) (pageNumbers : option (list Z))
    (σ : World) :
  convertToImages worker_answer this sn pageNumbers σ
  = processPages worker_answer (workerPool this) sn
      (default (all_pages sn) pageNumbers) σ.
Proof.
  unfold convertToImages, mbind, M_bind. cbv zeta.
  by destruct (processPages _ _ _ _ _) as [[results|e|] σ'].
Qed.

Lemma length_pos_nonempty {A : Type} (l : list A) : l ≠ [] → 0 < length l.
Proof. destruct l; [done|cbn; lia]. Qed.

Lemma fmap_concat {A B : Type} (f : A → B) (ls : list (list A)) :
  f <$> concat ls = concat ((λ l : list A, f <$> l) <$> ls).
Proof.
  induction ls as [|l ls IH]; cbn; [done|]. by rewrite fmap_app, IH.
Qed.

Lemma length_concat_Forall2 {A B : Type} (xs : list (list A)) (ys : list (list B)) :
  Forall2 (λ x y, length x = length y) xs ys →
  length (concat xs) = length (concat ys).
Proof.
  induction 1 as [|x y xs ys Hxy _ IH]; cbn; [done|].
  rewrite !length_app. lia.
Qed.

Lemma all_pages_empty (sn : SupernoteX) : pages sn = [] → all_pages sn = [].
Proof. unfold all_pages. by intros ->. Qed.

Lemma flat_fulfilled {A : Type} (o : Outcome (list (list A))) (result : list A) :
  Js.flat <$> o = Fulfilled result → ∃ results, o = Fulfilled results ∧ result = concat results.
Proof. destruct o as [results| |]; cbn; [|done|done]. intros [= <-]. by eexists. Qed.

(** C1: a successful [convertToImages (document, indices)] returns as many
    images as there are indices, the image at position [i] being the render
    of page [indices[i]], provided every worker answers a chunk with one
    image per page in the order of the chunk; the result is the
    concatenation of the renders of the chunks in chunk order, and the chunks
    in that order are the index list. *)
Theorem C1_results_follow_indices
    (worker_answer : WorkerId → SupernoteX → list Z → WorkerReply)
    (render : SupernoteX → Z → Image)
    (this : ImageConverter) (document : SupernoteX) (indices : option (list Z))
    (σ σ' : World) (result : list Image) :
  (∀ w chunk data,
     worker_answer w document chunk = Message data →
     truthy (error data) = false →
     images data = render document <$> chunk) →
  pool_ok (workerPool this) →
  convertToImages worker_answer this document indices σ = (Fulfilled result, σ') →
  let pages := default (all_pages document) indices in
  length result = length pages ∧
  (∀ i index, pages !! i = Some index → result !! i = Some (render document index)) ∧
  ∃ chunks,
    chunks_of (length (workers (workerPool this))) pages = Some chunks ∧
    concat chunks = pages ∧
    result = concat ((λ chunk : list Z, render document <$> chunk) <$> chunks).
Proof.
  intros Hworker Hok Hrun pages. rewrite convertToImages_run in Hrun.
  fold pages in Hrun.
  assert (∃ chunks,
    chunks_of (length (workers (workerPool this))) pages = Some chunks ∧
    concat chunks = pages ∧
    result = concat ((λ chunk : list Z, render document <$> chunk) <$> chunks)) as Hchunks.
  { destruct (decide (workers (workerPool this) = [])) as [Hws|Hws].
    - rewrite processPages_terminated in Hrun by done.
      rewrite Hws. cbn [length]. rewrite chunks_of_terminated.
      destruct pages; [|done]. injection Hrun as <- _. by exists [].
    - destruct (processPages_live worker_answer document (workerPool this) pages σ)
        as (chunks & Hc & Hlen & Hcat & Heq);
        [done|by apply length_pos_nonempty|].
      exists chunks. split_and!; [done|done|].
      rewrite Heq in Hrun. injection Hrun as Hrun _.
      apply flat_fulfilled in Hrun as (results & Hall & ->).
      apply Promise_all_Fulfilled in Hall.
      apply answers_fulfilled in Hall; [|done]. f_equal.
      clear -Hall Hworker. induction Hall as [|batch chunk results chunks Hb _ IH];
        cbn; [done|]. rewrite IH. f_equal.
      destruct Hb as (w & _ & Hd).
      destruct (worker_answer w document chunk) as [data|detail] eqn:Hans; [|done].
      cbn in Hd. unfold onmessage in Hd.
      destruct (truthy (error data)) eqn:Ht; [done|]. injection Hd as <-.
      by eapply Hworker. }
  destruct Hchunks as (chunks & Hc & Hcat & Hres).
  assert (result = render document <$> pages) as Hall.
  { by rewrite Hres, <- Hcat, fmap_concat. }
  split_and!.
  - by rewrite Hall, length_fmap.
  - intros i index Hi. by rewrite Hall, list_lookup_fmap, Hi.
  - by exists chunks.
Qed.

Lemma C1_results_follow_indices_witness :
  let result := ["page 3"; "page 1"] in
  let pages := default (all_pages (sample_note 3)) (Some [3; 1]%Z) in
  length result = length pages ∧
  (∀ i index, pages !! i = Some index →
     result !! i = Some (sample_render (sample_note 3) index)) ∧
  ∃ chunks,
    chunks_of (length (workers (workerPool (sample_converter 4)))) pages = Some chunks ∧
    concat chunks = pages ∧
    result = concat ((λ chunk : list Z, sample_render (sample_note 3) <$> chunk) <$> chunks).
Proof.
  apply (C1_results_follow_indices rendering_worker sample_render
           (sample_converter 4) (sample_note 3) (Some [3; 1]%Z)
           (sample_world 4)
           (with_log (sample_world 4)
              (posts (sample_note 3) [0; 1; 2; 3] [[3%Z]; [1%Z]]))).
  - intros w chunk data [= <-] _. reflexivity.
  - apply NoDup_seq.
  - reflexivity.
Defined.




(** The sample converter is the one the constructor makes. *)
Example sample_converter_is_new :
  ImageConverter_new 4 empty_world = (Fulfilled (sample_converter 4), sample_world 4).
Proof.
  unfold ImageConverter_new, mbind, M_bind. rewrite WorkerPool_new_run.
  unfold mret, M_ret, sample_converter, sample_pool, sample_world. cbn.
  by f_equal.
Qed.

(** Scenario D of the specification: the result follows the order of the
    request. *)
Example scenario_D :
  (convertToImages rendering_worker (sample_converter 4) (sample_note 3)
     (Some [3; 1]%Z) (sample_world 4)).1
  = Fulfilled [sample_render (sample_note 3) 3; sample_render (sample_note 3) 1].
Proof. reflexivity. Qed.

(** Scenario C of the specification: three pages, the render of page 2
    fails; the call is rejected with the error of the worker. *)
Example scenario_C :
  (convertToImages failing_worker (sample_converter 2) (sample_note 3) None
     (sample_world 2)).1
  = Rejected (Error "cannot render page 2").
Proof. reflexivity. Qed.

(** ** [terminate] *)

Lemma omap_fmap_none {A B C : Type} (f : B → option C) (g : A → B) (l : list A) :
  (∀ x, f (g x) = None) → omap f (g <$> l) = [].
Proof. intros H. induction l as [|x l IH]; cbn; [done|]. by rewrite H. Qed.

Lemma omap_fmap_some {A B C : Type} (f : B → option C) (g : A → B) (h : A → C)
    (l : list A) :
  (∀ x, f (g x) = Some (h x)) → omap f (g <$> l) = h <$> l.
Proof. intros H. induction l as [|x l IH]; cbn; [done|]. by rewrite H, IH. Qed.

Lemma terminate_times_run (n : nat) :
  ∀ (this : WorkerPool) (σ : World),
    ∃ σ',
      terminate_times (S n) this σ
      = (Fulfilled {| pool_id := pool_id this; maxWorkers := maxWorkers this;
                      workers := [] |}, σ') ∧
      live σ' = live σ ∖ list_to_set (workers this) ∧
      pools_terminated (log σ')
      = pools_terminated (log σ) ++ replicate (S n) (pool_id this).
Proof.
  induction n as [|n IH]; intros this σ.
  - cbn [terminate_times]. unfold mbind, M_bind.
    rewrite WorkerPool_terminate_run. eexists. split; [done|]. cbn. split; [done|].
    unfold pools_terminated. rewrite omap_app. cbn.
    by rewrite omap_fmap_none by done.
  - change (terminate_times (S (S n)) this)
      with (this' ← WorkerPool_terminate this; terminate_times (S n) this').
    unfold mbind, M_bind. rewrite WorkerPool_terminate_run.
    edestruct IH as (σ' & -> & Hlive & Hlog). exists σ'. cbn in *.
    split; [done|]. split; [set_solver|].
    rewrite Hlog. unfold pools_terminated. rewrite omap_app, <- app_assoc.
    cbn. by rewrite omap_fmap_none by done.
Qed.

(** C8: [terminate()] may be called any number of times, also on a pool
    that was never given work: no call throws, and after the first of them
    the worker array of the pool is empty and none of the workers it held
    is alive. *)
Theorem C8_terminate_safe (n : nat) (this : WorkerPool) (σ : World) :
  ∃ this' σ',
    terminate_times (S n) this σ = (Fulfilled this', σ') ∧
    workers this' = [] ∧
    (∀ w, w ∈ workers this → w ∉ live σ') ∧
    live σ' ⊆ live σ ∧
    ∀ m σ0, (WorkerPool_new m σ0).1 = Fulfilled this →
      ∀ w, next_worker σ0 ≤ w < next_worker σ0 + m → w ∉ live σ'.
Proof.
  destruct (terminate_times_run n this σ) as (σ' & Hrun & Hlive & _).
  eexists _, σ'. split; [exact Hrun|]. split; [done|].
  assert (∀ w, w ∈ workers this → w ∉ live σ') as Hdead.
  { intros w Hw. rewrite Hlive. set_solver. }
  split_and!; [done|set_solver|].
  intros m σ0 Hnew w Hw. apply Hdead.
  rewrite WorkerPool_new_run in Hnew. cbn in Hnew. injection Hnew as <-. cbn.
  apply elem_of_seq. lia.
Qed.

(** A pool that was never given work, terminated twice. *)
Example terminate_twice_unused :
  ∃ σ',
    (this ← WorkerPool_new 3; terminate_times 2 this) empty_world
    = (Fulfilled {| pool_id := 0; maxWorkers := 3; workers := [] |}, σ') ∧
    live σ' = ∅ ∧
    workers_terminated (log σ') = [0; 1; 2].
Proof. eexists. split; [reflexivity|]. split; [|reflexivity]. by vm_compute. Qed.

(** C5 (amended): the pool keeps no "terminated" state; after
    [terminate()] its worker array is empty, and a later [processPages]
    sends nothing and does not hang: on a list that is not empty it fails
    with the TypeError of the missing worker, on the empty list it returns
    the empty result. *)
Theorem C5_after_terminate
    (worker_answer : WorkerId → SupernoteX → list Z → WorkerReply)
    (n : nat) (this : WorkerPool) (σ : World) :
  ∃ this' σ',
    terminate_times (S n) this σ = (Fulfilled this', σ') ∧
    ∀ (sn : SupernoteX) (allPageNumbers : list Z) (σ'' : World),
      processPages worker_answer this' sn allPageNumbers σ''
      = (match allPageNumbers with
         | [] => Fulfilled []
         | _ :: _ => Rejected TypeError
         end, σ'').
Proof.
  destruct (terminate_times_run n this σ) as (σ' & Hrun & _).
  eexists _, σ'. split; [exact Hrun|].
  intros sn allPageNumbers σ''. by apply processPages_terminated.
Qed.

(** C5 as stated fails: on the empty list a terminated pool answers with
    the empty result and no failure. *)
Lemma C5_counterexample :
  ∃ this' σ',
    WorkerPool_terminate (sample_pool 2) (sample_world 2) = (Fulfilled this', σ') ∧
    (processPages rendering_worker this' (sample_note 0) [] σ').1 = Fulfilled [] ∧
    ¬ ∃ e, (processPages rendering_worker this' (sample_note 0) [] σ').1 = Rejected e.
Proof.
  eexists _, _. split; [reflexivity|]. split; [reflexivity|].
  intros [e He]. discriminate He.
Qed.

(** ** What a call sends *)

Lemma messages_posted_posts (sn : SupernoteX) (ws : list WorkerId) :
  ∀ chunks : list (list Z),
    messages_posted (posts sn ws chunks)
    = zip_with (λ w chunk, (w, convert_message sn chunk)) ws chunks.
Proof.
  induction ws as [|w ws IH]; intros [|chunk chunks]; cbn; try done.
  f_equal. apply IH.
Qed.

Lemma posted_workers (sn : SupernoteX) (ws : list WorkerId) (chunks : list (list Z)) :
  (messages_posted (posts sn ws chunks)).*1 = take (length chunks) ws.
Proof.
  rewrite messages_posted_posts. revert chunks.
  induction ws as [|w ws IH]; intros [|chunk chunks]; cbn; try done.
  f_equal. apply IH.
Qed.

Lemma posted_chunks (sn : SupernoteX) (ws : list WorkerId) (chunks : list (list Z)) :
  length chunks ≤ length ws →
  (λ wm, pageNumbers wm.2) <$> messages_posted (posts sn ws chunks) = chunks.
Proof.
  rewrite messages_posted_posts. revert chunks.
  induction ws as [|w ws IH]; intros [|chunk chunks] Hlen; cbn in *; try done; [lia|].
  f_equal. apply IH. lia.
Qed.

Lemma posts_only_messages (sn : SupernoteX) (ws : list WorkerId) :
  ∀ chunks : list (list Z),
    pools_created (posts sn ws chunks) = [] ∧
    pools_terminated (posts sn ws chunks) = [] ∧
    workers_created (posts sn ws chunks) = [] ∧
    workers_terminated (posts sn ws chunks) = [].
Proof.
  induction ws as [|w ws IH]; intros [|chunk chunks]; cbn; try done. apply IH.
Qed.

(** C6 (amended): [convertToImages] does not look at the page indices.  On
    a pool that holds workers every requested index, in range or not, is
    sent to a worker, unchanged and in order, no worker is constructed, and
    the call fails only with the failure some worker answered: there is no
    InvalidPageIndex error. *)
Theorem C6_no_index_validation
    (worker_answer : WorkerId → SupernoteX → list Z → WorkerReply)
    (this : ImageConverter) (document : SupernoteX) (indices : option (list Z))
    (σ : World) :
  pool_ok (workerPool this) →
  workers (workerPool this) ≠ [] →
  let ws := workers (workerPool this) in
  let pages := default (all_pages document) indices in
  let run := convertToImages worker_answer this document indices σ in
  ∃ evs,
    run.2 = with_log σ evs ∧
    concat ((λ wm, pageNumbers wm.2) <$> messages_posted evs) = pages ∧
    (∀ w message, (w, message) ∈ messages_posted evs → w ∈ ws) ∧
    workers_created evs = [] ∧
    ∀ e, run.1 = Rejected e →
      ∃ w chunk, w ∈ ws ∧ deliver (worker_answer w document chunk) = Rejected e.
Proof.
  intros Hok Hws ws pages run. subst run. rewrite convertToImages_run. fold pages.
  destruct (processPages_live worker_answer document (workerPool this) pages σ)
    as (chunks & Hc & Hlen & Hcat & Heq); [done|by apply length_pos_nonempty|].
  rewrite Heq. fold ws in Hlen |- *. exists (posts document ws chunks).
  cbn [fst snd]. split_and!.
  - done.
  - by rewrite posted_chunks.
  - intros w message Hin.
    assert (w ∈ (messages_posted (posts document ws chunks)).*1) as Hw.
    { apply list_elem_of_fmap. by exists (w, message). }
    rewrite posted_workers in Hw.
    eapply elem_of_sublist; [exact Hw|apply sublist_take].
  - apply posts_only_messages.
  - intros e He.
    destruct (Promise_all (answers worker_answer document ws chunks))
      as [results|e'|] eqn:Hall; cbn in He; try done.
    injection He as ->. apply Promise_all_Rejected in Hall.
    apply list_elem_of_lookup in Hall as [k Hk].
    unfold answers in Hk. rewrite lookup_zip_with in Hk.
    destruct (ws !! k) as [w|] eqn:Hw; [|done]. cbn in Hk.
    destruct (chunks !! k) as [chunk|] eqn:Hchunk; [|done]. cbn in Hk.
    injection Hk as Hk. exists w, chunk. split; [|done].
    by eapply list_elem_of_lookup_2.
Qed.

Lemma C6_no_index_validation_witness :
  let ws := workers (workerPool (sample_converter 1)) in
  let pages := default (all_pages (sample_note 3)) (Some [5]%Z) in
  let run := convertToImages rendering_worker (sample_converter 1) (sample_note 3)
               (Some [5]%Z) (sample_world 1) in
  ∃ evs,
    run.2 = with_log (sample_world 1) evs ∧
    concat ((λ wm, pageNumbers wm.2) <$> messages_posted evs) = pages ∧
    (∀ w message, (w, message) ∈ messages_posted evs → w ∈ ws) ∧
    workers_created evs = [] ∧
    ∀ e, run.1 = Rejected e →
      ∃ w chunk, w ∈ ws ∧
        deliver (rendering_worker w (sample_note 3) chunk) = Rejected e.
Proof.
  apply (C6_no_index_validation rendering_worker (sample_converter 1)
           (sample_note 3) (Some [5]%Z) (sample_world 1)).
  - apply NoDup_seq.
  - discriminate.
Defined.

(** C6 as stated fails: page 5 of a note of three pages is sent to worker 0
    like any other, and the call does not fail when the worker does not. *)
Lemma C6_counterexample :
  let run := convertToImages rendering_worker (sample_converter 1) (sample_note 3)
               (Some [5]%Z) (sample_world 1) in
  ¬ (1 ≤ 5 ≤ Z.of_nat (length (pages (sample_note 3))))%Z ∧
  messages_posted (drop (length (log (sample_world 1))) (log run.2))
  = [(0, convert_message (sample_note 3) [5%Z])] ∧
  run.1 = Fulfilled ["page 5"] ∧
  ¬ ∃ e, run.1 = Rejected e.
Proof.
  cbv zeta. split; [cbn; lia|]. split; [reflexivity|]. split; [reflexivity|].
  intros [e He]. discriminate He.
Qed.

(** C7 (amended): for an empty set of page indices, as for a note without
    pages under the default set, [convertToImages] returns the empty
    sequence and leaves the world as it was: no chunk is made, nothing is
    sent, and the call itself constructs no worker.  The workers of the pool
    exist already: the constructor made [maxWorkers] of them at once,
    whatever the note. *)
Theorem C7_empty_index_set
    (worker_answer : WorkerId → SupernoteX → list Z → WorkerReply)
    (this : ImageConverter) (document : SupernoteX) (indices : option (list Z))
    (σ : World) :
  default (all_pages document) indices = [] →
  chunks_of (length (workers (workerPool this))) [] = Some [] ∧
  convertToImages worker_answer this document indices σ = (Fulfilled [], σ) ∧
  (pages document = [] → default (all_pages document) None = []) ∧
  ∀ maxWorkers σ0, ∃ converter σ1 evs,
    ImageConverter_new maxWorkers σ0 = (Fulfilled converter, σ1) ∧
    log σ1 = log σ0 ++ evs ∧
    workers_created evs = workers (workerPool converter) ∧
    length (workers (workerPool converter)) = maxWorkers.
Proof.
  intros Hempty.
  assert (chunks_of (length (workers (workerPool this))) [] = Some []) as Hchunks.
  { by destruct (length (workers (workerPool this))). }
  split_and!.
  - done.
  - rewrite convertToImages_run, Hempty, processPages_run, Hchunks. cbn.
    by rewrite with_log_nil.
  - apply all_pages_empty.
  - intros maxWorkers σ0. unfold ImageConverter_new, mbind, M_bind.
    rewrite WorkerPool_new_run. eexists _, _, _. cbn [mret M_ret].
    split; [reflexivity|]. cbn [log workers workerPool].
    split; [reflexivity|]. split.
    + unfold workers_created. cbn [omap list_omap].
      rewrite (omap_fmap_some _ _ id) by done. by rewrite list_fmap_id.
    + by rewrite length_seq.
Qed.

Lemma C7_empty_index_set_witness :
  chunks_of (length (workers (workerPool (sample_converter 4)))) [] = Some [] ∧
  convertToImages rendering_worker (sample_converter 4) (sample_note 0) None
    (sample_world 4) = (Fulfilled [], sample_world 4) ∧
  (pages (sample_note 0) = [] → default (all_pages (sample_note 0)) None = []) ∧
  ∀ maxWorkers σ0, ∃ converter σ1 evs,
    ImageConverter_new maxWorkers σ0 = (Fulfilled converter, σ1) ∧
    log σ1 = log σ0 ++ evs ∧
    workers_created evs = workers (workerPool converter) ∧
    length (workers (workerPool converter)) = maxWorkers.
Proof.
  apply (C7_empty_index_set rendering_worker (sample_converter 4) (sample_note 0)
           None (sample_world 4)).
  reflexivity.
Defined.

(** C7 as stated fails: the call of [writeImageFiles] on a note without
    pages, on a host of four cores, constructs four workers. *)
Lemma C7_counterexample :
  let run := writeImageFiles_convert rendering_worker 4 (sample_note 0) empty_world in
  all_pages (sample_note 0) = [] ∧
  run.1 = Fulfilled [] ∧
  workers_created (log run.2) = [0; 1; 2; 3] ∧
  workers_created (log run.2) ≠ [].
Proof. cbv zeta. split_and!; try reflexivity. discriminate. Qed.

(** ** Round-robin dispatch *)

Lemma rem_injective (p j k : nat) :
  0 < p → j < p → k < p → Js.rem j p = Js.rem k p → j = k.
Proof.
  intros Hp Hj Hk.
  assert (∀ i, Js.rem i p = Js.Fin (i mod p)) as Hrem.
  { intros i. unfold Js.rem. destruct p; [lia|done]. }
  rewrite !Hrem, !Nat.mod_small by lia. congruence.
Qed.

Lemma not_overwritten (promises : list Promise) (k : nat) (w : WorkerId)
    (chunk : list Z) :
  NoDup (omap waiting_on promises) →
  promises !! k = Some (Waiting w chunk) →
  omap (posted_to w) (drop (S k) promises) = [].
Proof.
  intros Hnodup Hk. apply posted_to_none.
  rewrite <- (take_drop_middle promises k _ Hk) in Hnodup.
  rewrite omap_app in Hnodup. cbn in Hnodup.
  apply NoDup_app in Hnodup as (_ & _ & Hafter).
  by apply NoDup_cons in Hafter as [Hafter _].
Qed.

(** C9: in one [processPages] call on a pool of [poolSize >= 1] workers
    that was not terminated, the number of chunks,
    [ceil (n / ceil (n / poolSize))], is at most [poolSize], and the indices
    [k mod poolSize] of the chunks are pairwise distinct; so every worker is
    sent at most one chunk, and the handlers a chunk installs on its worker
    are not overwritten by a later chunk of the call: each promise is
    settled by the answer to its own chunk. *)
Theorem C9_one_chunk_per_worker
    (worker_answer : WorkerId → SupernoteX → list Z → WorkerReply)
    (this : WorkerPool) (sn : SupernoteX) (allPageNumbers : list Z) (σ : World) :
  pool_ok this →
  1 ≤ length (workers this) →
  let poolSize := length (workers this) in
  let n := length allPageNumbers in
  ∃ chunks evs,
    chunks_of poolSize allPageNumbers = Some chunks ∧
    length chunks = Js.ceil_nat n (Js.ceil_nat n poolSize) ∧
    length chunks ≤ poolSize ∧
    (∀ j k, j < length chunks → k < length chunks →
       Js.rem j poolSize = Js.rem k poolSize → j = k) ∧
    (processPages worker_answer this sn allPageNumbers σ).2 = with_log σ evs ∧
    length (messages_posted evs) = length chunks ∧
    NoDup (messages_posted evs).*1 ∧
    let promises := imap (promise_of (workers this)) chunks in
    ∀ k w chunk, promises !! k = Some (Waiting w chunk) →
      chunks !! k = Some chunk ∧
      omap (posted_to w) (drop (S k) promises) = [] ∧
      settle worker_answer sn promises k (Waiting w chunk)
      = deliver (worker_answer w sn chunk).
Proof.
  intros Hok Hlive poolSize n.
  destruct (chunks_of_live poolSize allPageNumbers ltac:(lia))
    as (chunks & Hc & Hcount & Hlen & Hcat).
  exists chunks, (posts sn (workers this) chunks). split_and!; try done.
  - intros j k Hj Hk. apply rem_injective; lia.
  - rewrite processPages_run. fold poolSize. rewrite Hc. cbn [snd].
    by rewrite posts_live.
  - rewrite messages_posted_posts, length_zip_with. fold poolSize. lia.
  - rewrite posted_workers. eapply sublist_NoDup; [exact Hok|apply sublist_take].
  - intros promises k w chunk Hk.
    assert (promises = zip_with Waiting (workers this) chunks) as Hp.
    { by apply promises_live. }
    assert (NoDup (omap waiting_on promises)) as Hnodup.
    { rewrite Hp, waiting_on_zip.
      eapply sublist_NoDup; [exact Hok|apply sublist_take]. }
    split_and!.
    + rewrite Hp, lookup_zip_with in Hk.
      destruct (workers this !! k); [|done]. cbn in Hk.
      destruct (chunks !! k); [|done]. cbn in Hk. by injection Hk as _ ->.
    + by eapply not_overwritten.
    + by apply settle_own.
Qed.

Lemma C9_one_chunk_per_worker_witness :
  let poolSize := length (workers (sample_pool 4)) in
  let n := length [1; 2; 3; 4; 5; 6; 7]%Z in
  ∃ chunks evs,
    chunks_of poolSize [1; 2; 3; 4; 5; 6; 7]%Z = Some chunks ∧
    length chunks = Js.ceil_nat n (Js.ceil_nat n poolSize) ∧
    length chunks ≤ poolSize ∧
    (∀ j k, j < length chunks → k < length chunks →
       Js.rem j poolSize = Js.rem k poolSize → j = k) ∧
    (processPages rendering_worker (sample_pool 4) (sample_note 7)
       [1; 2; 3; 4; 5; 6; 7]%Z (sample_world 4)).2
    = with_log (sample_world 4) evs ∧
    length (messages_posted evs) = length chunks ∧
    NoDup (messages_posted evs).*1 ∧
    let promises := imap (promise_of (workers (sample_pool 4))) chunks in
    ∀ k w chunk, promises !! k = Some (Waiting w chunk) →
      chunks !! k = Some chunk ∧
      omap (posted_to w) (drop (S k) promises) = [] ∧
      settle rendering_worker (sample_note 7) promises k (Waiting w chunk)
      = deliver (rendering_worker w (sample_note 7) chunk).
Proof.
  apply (C9_one_chunk_per_worker rendering_worker (sample_pool 4) (sample_note 7)
           [1; 2; 3; 4; 5; 6; 7]%Z (sample_world 4)).
  - apply NoDup_seq.
  - cbn. lia.
Defined.

(** What the overwriting would do: were two chunks sent to one worker, the
    promise of the first would never be settled. *)
Example overwritten_handlers_hang :
  settle rendering_worker (sample_note 2) [Waiting 0 [1%Z]; Waiting 0 [2%Z]] 0
    (Waiting 0 [1%Z]) = Pending.
Proof. reflexivity. Qed.

(** C10: on a pool constructed with [maxWorkers >= 1] and not terminated,
    every lookup [this.workers[index % this.workers.length]] of
    [processPages] is in bounds and gives a live worker of the pool, and the
    chunking loop ends on every list, [chunkSize] being at least 1 when the
    list is not empty. *)
Theorem C10_lookups_in_bounds (maxWorkers : nat) (σ0 : World) :
  1 ≤ maxWorkers →
  ∃ this σ,
    WorkerPool_new maxWorkers σ0 = (Fulfilled this, σ) ∧
    length (workers this) = maxWorkers ∧
    ∀ allPageNumbers : list Z,
      let chunkSize :=
        Js.ceil_div (length allPageNumbers) (length (workers this)) in
      ∃ chunks,
        (∀ fuel, S (length allPageNumbers) ≤ fuel →
           chunk_loop fuel allPageNumbers chunkSize (Js.Fin 0) [] = Some chunks) ∧
        (allPageNumbers ≠ [] → ∃ c, chunkSize = Js.Fin c ∧ 1 ≤ c) ∧
        ∀ index, index < length chunks →
          ∃ w,
            Js.index (workers this) (Js.rem index (length (workers this))) = Some w ∧
            w ∈ workers this ∧ w ∈ live σ.
Proof.
  intros Hmax. rewrite WorkerPool_new_run. eexists _, _. split; [reflexivity|].
  cbn [workers live]. rewrite length_seq. split; [done|].
  intros allPageNumbers.
  destruct (chunks_of_live maxWorkers allPageNumbers ltac:(lia))
    as (chunks & Hc & _ & Hlen & _).
  exists chunks. split_and!.
  - intros fuel Hfuel. eapply chunk_loop_more_fuel; [exact Hc|done].
  - intros Hne. unfold Js.ceil_div.
    destruct maxWorkers as [|p]; [lia|]. eexists. split; [done|].
    apply ceil_nat_pos; [lia|by apply length_pos_nonempty].
  - intros index Hindex.
    pose proof (dispatch_worker_in_range (seq (next_worker σ0) maxWorkers) index)
      as Hd.
    unfold dispatch_worker in Hd. rewrite length_seq in Hd. rewrite Hd by lia.
    exists (next_worker σ0 + index).
    assert (seq (next_worker σ0) maxWorkers !! index = Some (next_worker σ0 + index))
      as Hw by (apply lookup_seq; lia).
    split; [done|]. apply list_elem_of_lookup_2 in Hw. split; [done|].
    apply elem_of_union_l. by apply elem_of_list_to_set.
Qed.

Lemma C10_lookups_in_bounds_witness :
  ∃ this σ,
    WorkerPool_new 4 empty_world = (Fulfilled this, σ) ∧
    length (workers this) = 4 ∧
    ∀ allPageNumbers : list Z,
      let chunkSize :=
        Js.ceil_div (length allPageNumbers) (length (workers this)) in
      ∃ chunks,
        (∀ fuel, S (length allPageNumbers) ≤ fuel →
           chunk_loop fuel allPageNumbers chunkSize (Js.Fin 0) [] = Some chunks) ∧
        (allPageNumbers ≠ [] → ∃ c, chunkSize = Js.Fin c ∧ 1 ≤ c) ∧
        ∀ index, index < length chunks →
          ∃ w,
            Js.index (workers this) (Js.rem index (length (workers this))) = Some w ∧
            w ∈ workers this ∧ w ∈ live σ.
Proof. apply (C10_lookups_in_bounds 4 empty_world). lia. Defined.

(** ** The calls of [convertToImages] *)

Lemma try_finally_settled {A B : Type} (body : M A) (cleanup : M B)
    (σ σ1 σ2 : World) (o : Outcome A) (x : B) :
  body σ = (o, σ1) → o ≠ Pending → cleanup σ1 = (Fulfilled x, σ2) →
  try_finally body cleanup σ = (o, σ2).
Proof.
  intros Hbody Ho Hcleanup. unfold try_finally. rewrite Hbody.
  destruct o; [by rewrite Hcleanup|by rewrite Hcleanup|done].
Qed.

Section Calls.

Variable worker_answer : WorkerId → SupernoteX → list Z → WorkerReply.
Variable hardwareConcurrency : nat.

(** On a pool whose workers are distinct [processPages] always ends, and
    all it does to the world is to send messages to workers of the pool. *)
Lemma processPages_settles (this : WorkerPool) (sn : SupernoteX)
    (allPageNumbers : list Z) (σ : World) :
  pool_ok this →
  ∃ outcome chunks,
    processPages worker_answer this sn allPageNumbers σ
    = (outcome, with_log σ (posts sn (workers this) chunks)) ∧
    outcome ≠ Pending.
Proof.
  intros Hok. destruct (decide (workers this = [])) as [Hws|Hws].
  - rewrite processPages_terminated by done. rewrite Hws.
    eexists _, []. cbn. rewrite with_log_nil. split; [done|].
    by destruct allPageNumbers.
  - destruct (processPages_live worker_answer sn this allPageNumbers σ)
      as (chunks & _ & _ & _ & ->); [done|by apply length_pos_nonempty|].
    eexists _, chunks. split; [done|].
    pose proof (Promise_all_settled _ (answers_not_pending worker_answer sn
      (workers this) chunks)) as Hs.
    by destruct (Promise_all _).
Qed.

(** The block of the call sites, run. *)
Lemma call_site_run (sn : SupernoteX) (σ : World) :
  let pid := next_pool σ in
  let ws := seq (next_worker σ) hardwareConcurrency in
  ∃ outcome chunks,
    outcome ≠ Pending ∧
    writeImageFiles_convert worker_answer hardwareConcurrency sn σ
    = (outcome,
       {| next_worker := next_worker σ + hardwareConcurrency;
          next_pool := S pid;
          live := (list_to_set ws ∪ live σ) ∖ list_to_set ws;
          log := log σ ++ (NewPool pid :: (NewWorker <$> ws))
                 ++ posts sn ws chunks
                 ++ (PoolTerminate pid :: (WorkerTerminate <$> ws)) |}).
Proof.
  intros pid ws. unfold writeImageFiles_convert, ImageConverter_new.
  unfold mbind at 1 2, M_bind at 1 2. rewrite WorkerPool_new_run.
  cbn [mret M_ret]. fold pid ws.
  set (pool := {| pool_id := pid; maxWorkers := hardwareConcurrency; workers := ws |}).
  set (σ1 := {| next_worker := next_worker σ + hardwareConcurrency;
                next_pool := S pid; live := list_to_set ws ∪ live σ;
                log := log σ ++ NewPool pid :: (NewWorker <$> ws) |}).
  destruct (processPages_settles pool sn (default (all_pages sn) None) σ1)
    as (outcome & chunks & Hrun & Hsettled); [apply NoDup_seq|].
  exists outcome, chunks. split; [done|].
  eapply try_finally_settled; [|done|].
  - rewrite convertToImages_run. exact Hrun.
  - unfold ImageConverter_terminate, mbind, M_bind.
    rewrite WorkerPool_terminate_run. cbn. unfold mret, M_ret. f_equal. f_equal.
    by rewrite <- !app_assoc.
Qed.

End Calls.

(** C3: every call of [convertToImages] in the program has a pool of its
    own, made for it and used by no other call, and [terminate()] is called
    on that pool exactly once whether the call succeeds or fails.  The three
    calls are the blocks of [writeImageFiles], [exportToPDF] and
    [onLoadFile]: each constructs its converter, and with it the pool, calls
    [convertToImages] once and terminates the converter in [finally]. *)
Theorem C3_pool_per_call
    (worker_answer : WorkerId → SupernoteX → list Z → WorkerReply)
    (hardwareConcurrency : nat) :
  Forall (λ site,
    ∀ (sn : SupernoteX) (σ : World),
    ∃ outcome σ' evs,
      site sn σ = (outcome, σ') ∧
      log σ' = log σ ++ evs ∧
      outcome ≠ Pending ∧
      pools_created evs = [next_pool σ] ∧
      pools_terminated evs = [next_pool σ] ∧
      next_pool σ' = S (next_pool σ) ∧
      workers_created evs = seq (next_worker σ) hardwareConcurrency ∧
      workers_terminated evs = workers_created evs ∧
      next_worker σ' = next_worker σ + hardwareConcurrency ∧
      (∀ w message, (w, message) ∈ messages_posted evs → w ∈ workers_created evs) ∧
      Forall (λ next_site,
        ∀ sn2 : SupernoteX,
        ∃ outcome2 σ2 evs2,
          next_site sn2 σ' = (outcome2, σ2) ∧
          log σ2 = log σ' ++ evs2 ∧
          (∀ p, p ∈ pools_created evs2 → p ∉ pools_created evs) ∧
          (∀ p, p ∈ pools_terminated evs2 → p ∉ pools_created evs) ∧
          (∀ w message, (w, message) ∈ messages_posted evs2 →
             w ∉ workers_created evs))
        (call_sites worker_answer hardwareConcurrency))
    (call_sites worker_answer hardwareConcurrency).
Proof.
  assert (∀ (sn : SupernoteX) (σ : World),
    ∃ outcome σ' evs,
      writeImageFiles_convert worker_answer hardwareConcurrency sn σ = (outcome, σ') ∧
      log σ' = log σ ++ evs ∧
      outcome ≠ Pending ∧
      pools_created evs = [next_pool σ] ∧
      pools_terminated evs = [next_pool σ] ∧
      next_pool σ' = S (next_pool σ) ∧
      workers_created evs = seq (next_worker σ) hardwareConcurrency ∧
      workers_terminated evs = workers_created evs ∧
      next_worker σ' = next_worker σ + hardwareConcurrency ∧
      (∀ w message, (w, message) ∈ messages_posted evs → w ∈ workers_created evs))
    as Hcall.
  { intros sn σ.
    destruct (call_site_run worker_answer hardwareConcurrency sn σ)
      as (outcome & chunks & Hsettled & Hrun).
    set (ws := seq (next_worker σ) hardwareConcurrency) in *.
    destruct (posts_only_messages sn ws chunks) as (Hpc & Hpt & Hwc & Hwt).
    assert (∀ evs, workers_created
              (NewPool (next_pool σ) :: (NewWorker <$> ws) ++ posts sn ws chunks ++ evs)
            = ws ++ workers_created evs) as Hcreated.
    { intros evs. unfold workers_created in *. cbn.
      rewrite !omap_app, Hwc, (omap_fmap_some _ _ id) by done.
      by rewrite list_fmap_id. }
    eexists outcome, _, _. split; [exact Hrun|]. cbn [log next_pool next_worker].
    split; [reflexivity|]. split; [done|].
    rewrite <- !app_comm_cons.
    split_and!; try done.
    - unfold pools_created in *. cbn. rewrite !omap_app, Hpc. cbn.
      by rewrite !omap_fmap_none by done.
    - unfold pools_terminated in *. cbn. rewrite !omap_app, Hpt. cbn.
      by rewrite !omap_fmap_none by done.
    - rewrite Hcreated. cbn. rewrite omap_fmap_none by done. apply app_nil_r.
    - rewrite Hcreated.
      assert (workers_created
                (PoolTerminate (next_pool σ) :: (WorkerTerminate <$> ws)) = []) as ->.
      { unfold workers_created. cbn. by rewrite omap_fmap_none by done. }
      rewrite app_nil_r. unfold workers_terminated in *. cbn.
      rewrite !omap_app, Hwt. cbn.
      rewrite (omap_fmap_none _ NewWorker) by done.
      rewrite (omap_fmap_some _ WorkerTerminate id) by done.
      by rewrite list_fmap_id.
    - intros w message Hin. rewrite Hcreated. apply elem_of_app. left.
      unfold messages_posted in Hin. cbn in Hin.
      rewrite !omap_app in Hin. cbn in Hin.
      rewrite !omap_fmap_none in Hin by done. rewrite app_nil_r in Hin. cbn in Hin.
      assert (w ∈ (messages_posted (posts sn ws chunks)).*1) as Hw.
      { apply list_elem_of_fmap. by exists (w, message). }
      rewrite posted_workers in Hw.
      eapply elem_of_sublist; [exact Hw|apply sublist_take]. }
  assert (∀ (sn : SupernoteX) (σ : World),
    ∃ outcome σ' evs,
      writeImageFiles_convert worker_answer hardwareConcurrency sn σ = (outcome, σ') ∧
      log σ' = log σ ++ evs ∧
      outcome ≠ Pending ∧
      pools_created evs = [next_pool σ] ∧
      pools_terminated evs = [next_pool σ] ∧
      next_pool σ' = S (next_pool σ) ∧
      workers_created evs = seq (next_worker σ) hardwareConcurrency ∧
      workers_terminated evs = workers_created evs ∧
      next_worker σ' = next_worker σ + hardwareConcurrency ∧
      (∀ w message, (w, message) ∈ messages_posted evs → w ∈ workers_created evs) ∧
      Forall (λ next_site,
        ∀ sn2 : SupernoteX,
        ∃ outcome2 σ2 evs2,
          next_site sn2 σ' = (outcome2, σ2) ∧
          log σ2 = log σ' ++ evs2 ∧
          (∀ p, p ∈ pools_created evs2 → p ∉ pools_created evs) ∧
          (∀ p, p ∈ pools_terminated evs2 → p ∉ pools_created evs) ∧
          (∀ w message, (w, message) ∈ messages_posted evs2 →
             w ∉ workers_created evs))
        (call_sites worker_answer hardwareConcurrency)) as Htwo.
  { intros sn σ.
    destruct (Hcall sn σ)
      as (outcome & σ' & evs & Hrun & Hlog & Hs & Hpc & Hpt & Hnp & Hwc & Hwt & Hnw & Hm).
    exists outcome, σ', evs. split_and!; try done.
    assert (∀ sn2 : SupernoteX,
      ∃ outcome2 σ2 evs2,
        writeImageFiles_convert worker_answer hardwareConcurrency sn2 σ' = (outcome2, σ2) ∧
        log σ2 = log σ' ++ evs2 ∧
        (∀ p, p ∈ pools_created evs2 → p ∉ pools_created evs) ∧
        (∀ p, p ∈ pools_terminated evs2 → p ∉ pools_created evs) ∧
        (∀ w message, (w, message) ∈ messages_posted evs2 →
           w ∉ workers_created evs)) as Hnext.
    { intros sn2.
      destruct (Hcall sn2 σ')
        as (o2 & σ2 & evs2 & Hrun2 & Hlog2 & _ & Hpc2 & Hpt2 & _ & Hwc2 & _ & _ & Hm2).
      exists o2, σ2, evs2. split_and!; try done.
      - intros p. rewrite Hpc2, Hpc, Hnp. set_solver by lia.
      - intros p. rewrite Hpt2, Hpc, Hnp. set_solver by lia.
      - intros w message Hin. apply Hm2 in Hin.
        rewrite Hwc2, Hnw in Hin. rewrite Hwc.
        apply elem_of_seq in Hin. rewrite elem_of_seq. lia. }
    repeat constructor; exact Hnext. }
  repeat constructor; exact Htwo.
Qed.

(** Both ways out of the call: on success and on failure the pool of the
    call is terminated once. *)
Example call_succeeds :
  let run := writeImageFiles_convert rendering_worker 4 (sample_note 7) empty_world in
  run.1 = Fulfilled ["page 1"; "page 2"; "page 3"; "page 4"; "page 5"; "page 6"; "page 7"] ∧
  pools_terminated (log run.2) = [0].
Proof. split; reflexivity. Qed.

Example call_fails :
  let run := exportToPDF_convert failing_worker 4 (sample_note 3) empty_world in
  run.1 = Rejected (Error "cannot render page 2") ∧
  pools_terminated (log run.2) = [0].
Proof. split; reflexivity. Qed.

(** ** Strings *)

Lemma string_app_cons (c : ascii) (s t : string) :
  String.String c s +:+ t = String.String c (s +:+ t).
Proof. reflexivity. Qed.

Lemma string_app_nil_l (t : string) : "" +:+ t = t.
Proof. reflexivity. Qed.

Lemma string_length_app (s t : string) :
  String.length (s +:+ t) = String.length s + String.length t.
Proof.
  induction s as [|c s IH]; [done|].
  rewrite string_app_cons. cbn. by f_equal.
Qed.

Lemma string_app_assoc (s t u : string) : (s +:+ t) +:+ u = s +:+ t +:+ u.
Proof.
  induction s as [|c s IH]; [done|].
  rewrite !string_app_cons. by f_equal.
Qed.

Lemma string_app_nil_r (s : string) : s +:+ "" = s.
Proof.
  induction s as [|c s IH]; [done|].
  rewrite string_app_cons. by f_equal.
Qed.

(** Two texts that end in pieces of the same length agree piece by piece. *)
Lemma string_app_inj_r (s1 s2 t1 t2 : string) :
  String.length t1 = String.length t2 →
  s1 +:+ t1 = s2 +:+ t2 → s1 = s2 ∧ t1 = t2.
Proof.
  revert s2. induction s1 as [|c s1 IH]; intros [|c' s2] Hlen Heq;
    rewrite ?string_app_cons, ?string_app_nil_l in Heq.
  - done.
  - exfalso. apply (f_equal String.length) in Heq. cbn in Heq.
    rewrite string_length_app in Heq. lia.
  - exfalso. apply (f_equal String.length) in Heq. cbn in Heq.
    rewrite string_length_app in Heq. lia.
  - injection Heq as -> Heq. destruct (IH s2 Hlen Heq) as [-> ->]. done.
Qed.

Lemma string_get_list (s : string) (i : nat) :
  String.get i s = String.list_ascii_of_string s !! i.
Proof.
  revert i. induction s as [|c s IH]; intros [|i]; cbn; auto.
Qed.

Lemma string_length_list (s : string) :
  String.length s = length (String.list_ascii_of_string s).
Proof. induction s as [|c s IH]; cbn; [done|by f_equal]. Qed.

(** ** [generateTimestamp] *)

Lemma digit_inj (a b : nat) : a < 10 → b < 10 → digit a = digit b → a = b.
Proof.
  intros Ha Hb Heq. apply (f_equal nat_of_ascii) in Heq. unfold digit in Heq.
  rewrite !nat_ascii_embedding in Heq by lia. lia.
Qed.

(** [String(n).padStart(2, '0')] below 100: the two decimal digits. *)
Lemma pad2_digits (n : nat) :
  n < 100 →
  JsStr.padStart (JsStr.of_nat n) 2 "0"
  = String.String (digit (n / 10)) (String.String (digit (n mod 10)) "").
Proof.
  intros Hn.
  do 100 (destruct n as [|n]; [vm_compute; reflexivity|]). lia.
Qed.

Lemma pad2_inj (n m : nat) :
  n < 100 → m < 100 →
  JsStr.padStart (JsStr.of_nat n) 2 "0" = JsStr.padStart (JsStr.of_nat m) 2 "0" →
  n = m.
Proof.
  intros Hn Hm. rewrite !pad2_digits by done.
  pose proof (Nat.div_mod_eq n 10) as En. pose proof (Nat.div_mod_eq m 10) as Em.
  pose proof (Nat.mod_upper_bound n 10 ltac:(lia)) as Bn.
  pose proof (Nat.mod_upper_bound m 10 ltac:(lia)) as Bm.
  revert En Em Bn Bm.
  generalize (n / 10) (n mod 10) (m / 10) (m mod 10). intros a b c d En Em Bn Bm.
  intros [= H1 H0].
  apply digit_inj in H1; [|lia..]. apply digit_inj in H0; [|lia..]. lia.
Qed.

Lemma pretty_char_digit (d : nat) :
  d < 10 → pretty_N_char (N.of_nat d) = digit d.
Proof. intros Hd. do 10 (destruct d as [|d]; [reflexivity|]). lia. Qed.

(** [String(year)] for a year of four digits. *)
Lemma year_digits (y : nat) :
  1000 ≤ y < 10 * 1000 →
  JsStr.of_nat y
  = String.String (digit (y / 1000))
      (String.String (digit (y / 100 mod 10))
        (String.String (digit (y / 10 mod 10))
          (String.String (digit (y mod 10)) ""))).
Proof.
  intros Hy. unfold JsStr.of_nat, pretty, pretty_nat, pretty, pretty_N.
  assert (y / 1000 < 10) as H3 by (apply Nat.Div0.div_lt_upper_bound; lia).
  assert (1 ≤ y / 1000) as H3' by (apply Nat.div_le_lower_bound; lia).
  assert (1 ≤ y / 100) as H2' by (apply Nat.div_le_lower_bound; lia).
  assert (1 ≤ y / 10) as H1' by (apply Nat.div_le_lower_bound; lia).
  rewrite decide_False by lia.
  assert (∀ n s, 0 < n →
    pretty_N_go (N.of_nat n) s
    = pretty_N_go (N.of_nat (n / 10)) (String.String (digit (n mod 10)) s)) as Hstep.
  { intros n s Hn. rewrite pretty_N_go_step by lia.
    change 10%N with (N.of_nat 10).
    rewrite <- Nat2N.inj_div, <- Nat2N.inj_mod.
    rewrite pretty_char_digit by (apply Nat.mod_upper_bound; lia). done. }
  assert (0 < y / 10 / 10) as F2.
  { rewrite Nat.Div0.div_div. exact H2'. }
  assert (0 < y / 10 / 10 / 10) as F3.
  { rewrite !Nat.Div0.div_div. exact H3'. }
  rewrite Hstep by lia. rewrite Hstep by exact H1'.
  rewrite Hstep by exact F2. rewrite Hstep by exact F3.
  rewrite !Nat.Div0.div_div.
  change (10 * (10 * 10)) with 1000. change (10 * 10) with 100.
  rewrite (Nat.div_small y (10 * 1000)) by apply Hy. rewrite pretty_N_go_0.
  by rewrite (Nat.mod_small (y / 1000) 10) by exact H3.
Qed.

Lemma digit_compare (a b : nat) :
  a < 10 → b < 10 → Ascii.compare (digit a) (digit b) = (a ?= b).
Proof.
  intros Ha Hb. unfold Ascii.compare, digit, ascii_of_nat.
  rewrite !N_ascii_embedding by lia.
  destruct (N.compare_spec (N.of_nat (48 + a)) (N.of_nat (48 + b)));
    destruct (Nat.compare_spec a b); try done; lia.
Qed.

(** Comparing two numbers digit by digit, the high digit first. *)
Lemma compare_positional (base a1 a0 b1 b0 : nat) (rest : comparison) :
  a0 < base → b0 < base →
  then_compare (a1 ?= b1) (then_compare (a0 ?= b0) rest)
  = then_compare (base * a1 + a0 ?= base * b1 + b0) rest.
Proof.
  intros Ha Hb. unfold then_compare.
  destruct (Nat.compare_spec a1 b1); destruct (Nat.compare_spec a0 b0);
    destruct (Nat.compare_spec (base * a1 + a0) (base * b1 + b0));
    try done; nia.
Qed.

Lemma compare_two_digits (n m : nat) (rest : comparison) :
  n < 100 → m < 100 →
  then_compare (n / 10 ?= m / 10) (then_compare (n mod 10 ?= m mod 10) rest)
  = then_compare (n ?= m) rest.
Proof.
  intros Hn Hm.
  rewrite (compare_positional 10) by (apply Nat.mod_upper_bound; lia).
  by rewrite <- !Nat.div_mod_eq.
Qed.

Lemma four_digits_value (n : nat) :
  1000 * (n / 1000) + (100 * (n / 100 mod 10) + (10 * (n / 10 mod 10) + n mod 10))
  = n.
Proof.
  replace (n / 1000) with (n / 10 / 10 / 10)
    by (rewrite !Nat.Div0.div_div; reflexivity).
  replace (n / 100) with (n / 10 / 10) by (rewrite !Nat.Div0.div_div; reflexivity).
  pose proof (Nat.div_mod_eq n 10) as E0.
  pose proof (Nat.div_mod_eq (n / 10) 10) as E1.
  pose proof (Nat.div_mod_eq (n / 10 / 10) 10) as E2.
  revert E0 E1 E2.
  generalize (n / 10 / 10 / 10) (n / 10 / 10 mod 10). intros a3 d2.
  generalize (n / 10 / 10) (n / 10 mod 10). intros a2 d1.
  generalize (n / 10) (n mod 10). intros a1 d0. lia.
Qed.

Lemma two_digits_bound (a b : nat) : a < 10 → b < 10 → 10 * a + b < 100.
Proof. lia. Qed.

Lemma three_digits_bound (a b : nat) : a < 10 → b < 100 → 100 * a + b < 1000.
Proof. lia. Qed.

Lemma compare_four_digits (n m : nat) (rest : comparison) :
  then_compare (n / 1000 ?= m / 1000)
    (then_compare (n / 100 mod 10 ?= m / 100 mod 10)
      (then_compare (n / 10 mod 10 ?= m / 10 mod 10)
        (then_compare (n mod 10 ?= m mod 10) rest)))
  = then_compare (n ?= m) rest.
Proof.
  assert (∀ k, k mod 10 < 10) as Hmod by (intros k; apply Nat.mod_upper_bound; lia).
  rewrite (compare_positional 10 (n / 10 mod 10)) by apply Hmod.
  rewrite (compare_positional 100 (n / 100 mod 10))
    by (apply two_digits_bound; apply Hmod).
  rewrite (compare_positional 1000)
    by (apply three_digits_bound; [apply Hmod|apply two_digits_bound; apply Hmod]).
  by rewrite !four_digits_value.
Qed.

(** The text of a clock reading, character by character after the year. *)
Lemma timestamp_digits (date : Date) :
  clock_reading date →
  generateTimestamp date
  = JsStr.of_nat (getFullYear date) +:+
    String.String "-"
     (String.String (digit ((getMonth date + 1) / 10))
     (String.String (digit ((getMonth date + 1) mod 10))
     (String.String "-"
     (String.String (digit (getDate date / 10))
     (String.String (digit (getDate date mod 10))
     (String.String "-"
     (String.String (digit (getHours date / 10))
     (String.String (digit (getHours date mod 10))
     (String.String "-"
     (String.String (digit (getMinutes date / 10))
     (String.String (digit (getMinutes date mod 10))
     (String.String "-"
     (String.String (digit (getSeconds date / 10))
     (String.String (digit (getSeconds date mod 10)) "")))))))))))))).
Proof.
  intros (Hmo & Hd & Hh & Hmi & Hs). unfold generateTimestamp. cbv zeta.
  rewrite !pad2_digits by lia. reflexivity.
Qed.

Lemma string_cons_inj (c1 c2 : ascii) (s1 s2 : string) :
  String.String c1 s1 = String.String c2 s2 → c1 = c2 ∧ s1 = s2.
Proof. by intros [= -> ->]. Qed.

Lemma two_digits_inj (a b : nat) :
  digit (a / 10) = digit (b / 10) → digit (a mod 10) = digit (b mod 10) →
  a < 100 → b < 100 → a = b.
Proof.
  intros H1 H0 Ha Hb.
  pose proof (Nat.div_mod_eq a 10) as Ea. pose proof (Nat.div_mod_eq b 10) as Eb.
  pose proof (Nat.mod_upper_bound a 10 ltac:(lia)) as Ba.
  pose proof (Nat.mod_upper_bound b 10 ltac:(lia)) as Bb.
  revert H1 H0 Ea Eb Ba Bb.
  generalize (a / 10) (a mod 10) (b / 10) (b mod 10). intros q r q' r' H1 H0 **.
  apply digit_inj in H1; [|lia..]. apply digit_inj in H0; [|lia..]. lia.
Qed.

(** X1: Two clock readings that differ give two timestamps: the names built
    from them never collide. *)
Theorem generateTimestamp_injective (d1 d2 : Date) :
  clock_reading d1 → clock_reading d2 →
  generateTimestamp d1 = generateTimestamp d2 → d1 = d2.
Proof.
  intros H1 H2 Heq.
  rewrite (timestamp_digits d1 H1), (timestamp_digits d2 H2) in Heq.
  destruct H1 as (Hmo1 & Hd1 & Hh1 & Hmi1 & Hs1).
  destruct H2 as (Hmo2 & Hd2 & Hh2 & Hmi2 & Hs2).
  apply string_app_inj_r in Heq as [Hyear Htail]; [|reflexivity].
  apply (inj pretty) in Hyear.
  apply string_cons_inj in Htail as [_ Htail].
  apply string_cons_inj in Htail as [Ea1 Htail].
  apply string_cons_inj in Htail as [Ea0 Htail].
  apply string_cons_inj in Htail as [_ Htail].
  apply string_cons_inj in Htail as [Eb1 Htail].
  apply string_cons_inj in Htail as [Eb0 Htail].
  apply string_cons_inj in Htail as [_ Htail].
  apply string_cons_inj in Htail as [Ec1 Htail].
  apply string_cons_inj in Htail as [Ec0 Htail].
  apply string_cons_inj in Htail as [_ Htail].
  apply string_cons_inj in Htail as [Ed1 Htail].
  apply string_cons_inj in Htail as [Ed0 Htail].
  apply string_cons_inj in Htail as [_ Htail].
  apply string_cons_inj in Htail as [Ee1 Htail].
  apply string_cons_inj in Htail as [Ee0 _].
  pose proof (two_digits_inj (getMonth d1 + 1) (getMonth d2 + 1) Ea1 Ea0
                ltac:(lia) ltac:(lia)) as Emonth.
  pose proof (two_digits_inj _ _ Eb1 Eb0 ltac:(lia) ltac:(lia)) as Eday.
  pose proof (two_digits_inj _ _ Ec1 Ec0 ltac:(lia) ltac:(lia)) as Ehours.
  pose proof (two_digits_inj _ _ Ed1 Ed0 ltac:(lia) ltac:(lia)) as Eminutes.
  pose proof (two_digits_inj _ _ Ee1 Ee0 ltac:(lia) ltac:(lia)) as Eseconds.
  clear -Hyear Emonth Eday Ehours Eminutes Eseconds.
  destruct d1, d2; cbn in *. f_equal; lia.
Qed.

Lemma generateTimestamp_injective_witness :
  {| getFullYear := 2024; getMonth := 0; getDate := 5; getHours := 13;
     getMinutes := 7; getSeconds := 0 |}
  = {| getFullYear := 2024; getMonth := 0; getDate := 5; getHours := 13;
       getMinutes := 7; getSeconds := 0 |}.
Proof.
  apply generateTimestamp_injective.
  - unfold clock_reading. cbn. lia.
  - unfold clock_reading. cbn. lia.
  - reflexivity.
Defined.

Lemma compare_cons (c1 c2 : ascii) (s1 s2 : string) :
  String.compare (String.String c1 s1) (String.String c2 s2)
  = then_compare (Ascii.compare c1 c2) (String.compare s1 s2).
Proof. unfold then_compare. cbn. by destruct (Ascii.compare c1 c2). Qed.

Lemma then_compare_Eq_r (c : comparison) : then_compare c Eq = c.
Proof. by destruct c. Qed.

(** X2: For years of four digits the timestamps sort as the clock readings do:
    comparing two of them as strings tells which reading is the earlier. *)
Theorem generateTimestamp_sorts (d1 d2 : Date) :
  clock_reading d1 → clock_reading d2 →
  1000 ≤ getFullYear d1 < 10 * 1000 →
  1000 ≤ getFullYear d2 < 10 * 1000 →
  String.length (generateTimestamp d1) = 19 ∧
  String.compare (generateTimestamp d1) (generateTimestamp d2) = date_compare d1 d2.
Proof.
  intros H1 H2 Hy1 Hy2.
  rewrite (timestamp_digits d1 H1), (timestamp_digits d2 H2).
  rewrite (year_digits _ Hy1), (year_digits _ Hy2).
  destruct H1 as (Hmo1 & Hd1 & Hh1 & Hmi1 & Hs1).
  destruct H2 as (Hmo2 & Hd2 & Hh2 & Hmi2 & Hs2).
  split; [reflexivity|].
  rewrite !string_app_cons, !string_app_nil_l, !compare_cons.
  assert (∀ k, k mod 10 < 10) as Hmod by (intros k; apply Nat.mod_upper_bound; lia).
  assert (∀ k, k < 100 → k / 10 < 10) as Hdiv.
  { intros k Hk. apply Nat.Div0.div_lt_upper_bound. lia. }
  assert (∀ k, k < 10 * 1000 → k / 1000 < 10) as Hdiv4.
  { intros k Hk. apply Nat.Div0.div_lt_upper_bound. lia. }
  rewrite !digit_compare by first [apply Hmod | apply Hdiv; lia | apply Hdiv4; lia].
  change (Ascii.compare "-" "-") with Eq. cbn [then_compare String.compare].
  rewrite compare_four_digits.
  rewrite !compare_two_digits by lia.
  rewrite then_compare_Eq_r, !Nat.add_1_r, Nat.compare_succ. reflexivity.
Qed.

Lemma generateTimestamp_sorts_witness :
  let d1 := {| getFullYear := 2024; getMonth := 11; getDate := 31; getHours := 23;
               getMinutes := 59; getSeconds := 59 |} in
  let d2 := {| getFullYear := 2025; getMonth := 0; getDate := 1; getHours := 0;
               getMinutes := 0; getSeconds := 0 |} in
  String.length (generateTimestamp d1) = 19 ∧
  String.compare (generateTimestamp d1) (generateTimestamp d2) = date_compare d1 d2.
Proof.
  apply generateTimestamp_sorts; unfold clock_reading; cbn; lia.
Defined.

(** ** [dataUrlToBuffer] *)

Lemma split_no_separator (sep : ascii) (s : string) :
  sep ∉ String.list_ascii_of_string s → JsStr.split sep s = [s].
Proof.
  induction s as [|c s IH]; intros Hsep; [done|].
  cbn in Hsep. apply not_elem_of_cons in Hsep as [Hne Hsep].
  cbn. rewrite decide_False by done. by rewrite IH.
Qed.

Lemma split_at_separator (sep : ascii) (before after : string) :
  sep ∉ String.list_ascii_of_string before →
  JsStr.split sep (before +:+ String.String sep after)
  = before :: JsStr.split sep after.
Proof.
  induction before as [|c s IH]; intros Hsep.
  - rewrite string_app_nil_l. cbn. by rewrite decide_True.
  - cbn in Hsep. apply not_elem_of_cons in Hsep as [Hne Hsep].
    rewrite string_app_cons. cbn. rewrite decide_False by done. by rewrite IH.
Qed.

(** The byte loop: the array starts as zeros and ends as the character
    codes, one store at a time. *)
Lemma fill_in_order (f : nat → nat) (n : nat) :
  ∀ k, k ≤ n →
    foldl (λ bytes i, <[i := f i]> bytes) (replicate n 0) (seq 0 k)
    = (f <$> seq 0 k) ++ replicate (n - k) 0.
Proof.
  induction k as [|k IH]; intros Hk.
  - cbn. by rewrite Nat.sub_0_r.
  - rewrite seq_S, foldl_app, IH by lia. cbn [foldl Nat.add].
    replace (n - k) with (S (n - S k)) by lia.
    rewrite insert_app_r_alt by (rewrite length_fmap, length_seq; lia).
    rewrite length_fmap, length_seq, Nat.sub_diag. cbn.
    by rewrite fmap_app, <- app_assoc.
Qed.

Lemma copy_bytes_codes (binaryString : string) :
  copy_bytes binaryString
  = nat_of_ascii <$> String.list_ascii_of_string binaryString.
Proof.
  unfold copy_bytes, Uint8Array_store.
  rewrite (fill_in_order (λ i, default 0 (JsStr.charCodeAt binaryString i) `mod` 256))
    by done.
  rewrite Nat.sub_diag, app_nil_r. apply list_eq. intros i.
  rewrite !list_lookup_fmap. rewrite string_length_list.
  destruct (String.list_ascii_of_string binaryString !! i) as [c|] eqn:Hi.
  - apply lookup_lt_Some in Hi as Hlt.
    assert (seq 0 (length (String.list_ascii_of_string binaryString)) !! i = Some i)
      as -> by (apply lookup_seq; lia).
    cbn [fmap option_fmap option_map].
    unfold JsStr.charCodeAt. rewrite string_get_list, Hi.
    change (Some (nat_of_ascii c `mod` 256) = Some (nat_of_ascii c)).
    by rewrite Nat.mod_small by apply nat_ascii_bounded.
  - apply lookup_ge_None in Hi.
    assert (seq 0 (length (String.list_ascii_of_string binaryString)) !! i = None)
      as -> by (apply lookup_ge_None; by rewrite length_seq).
    done.
Qed.

(** X3: Of a data URL only the text between the first comma and the second is
    decoded: the prefix before the first comma is dropped, and so is
    whatever follows a second comma; the buffer holds the character codes of
    the decoded string, one byte each. *)
Theorem dataUrlToBuffer_decodes_payload (atob : string → JsError + string)
    (prefix payload rest : string) :
  ","%char ∉ String.list_ascii_of_string prefix →
  ","%char ∉ String.list_ascii_of_string payload →
  dataUrlToBuffer atob (prefix +:+ "," +:+ payload)
  = match atob payload with
    | inl e => inl e
    | inr binaryString =>
        inr (nat_of_ascii <$> String.list_ascii_of_string binaryString)
    end ∧
  dataUrlToBuffer atob (prefix +:+ "," +:+ payload +:+ "," +:+ rest)
  = dataUrlToBuffer atob (prefix +:+ "," +:+ payload).
Proof.
  intros Hprefix Hpayload. unfold dataUrlToBuffer.
  change ("," +:+ payload) with (String.String "," payload).
  change ("," +:+ payload +:+ "," +:+ rest)
    with (String.String "," (payload +:+ String.String "," rest)).
  rewrite !split_at_separator by done. rewrite split_no_separator by done.
  cbn [lookup list_lookup JsStr.of_optional default]. unfold id.
  split; [|done].
  destruct (atob payload) as [e|binaryString]; [done|].
  by rewrite copy_bytes_codes.
Qed.

Lemma dataUrlToBuffer_decodes_payload_witness :
  dataUrlToBuffer sample_atob ("data:image/png;base64" +:+ "," +:+ "QUJD")
  = match sample_atob "QUJD" with
    | inl e => inl e
    | inr binaryString =>
        inr (nat_of_ascii <$> String.list_ascii_of_string binaryString)
    end ∧
  dataUrlToBuffer sample_atob ("data:image/png;base64" +:+ "," +:+ "QUJD" +:+ "," +:+ "tail")
  = dataUrlToBuffer sample_atob ("data:image/png;base64" +:+ "," +:+ "QUJD").
Proof.
  apply (dataUrlToBuffer_decodes_payload sample_atob "data:image/png;base64" "QUJD" "tail").
  - compute_done.
  - compute_done.
Defined.

(** X4: A text without a comma is not decoded at all: [split(',')[1]] is
    [undefined], and what [atob] is given is the word "undefined". *)
Theorem dataUrlToBuffer_without_comma (atob : string → JsError + string)
    (dataUrl : string) :
  ","%char ∉ String.list_ascii_of_string dataUrl →
  dataUrlToBuffer atob dataUrl
  = match atob "undefined" with
    | inl e => inl e
    | inr binaryString =>
        inr (nat_of_ascii <$> String.list_ascii_of_string binaryString)
    end.
Proof.
  intros Hcomma. unfold dataUrlToBuffer. rewrite split_no_separator by done.
  cbn [lookup list_lookup JsStr.of_optional default]. unfold id.
  destruct (atob "undefined") as [e|binaryString]; [done|].
  by rewrite copy_bytes_codes.
Qed.

Lemma dataUrlToBuffer_without_comma_witness :
  dataUrlToBuffer sample_atob "QUJD"
  = match sample_atob "undefined" with
    | inl e => inl e
    | inr binaryString =>
        inr (nat_of_ascii <$> String.list_ascii_of_string binaryString)
    end.
Proof.
  apply (dataUrlToBuffer_without_comma sample_atob "QUJD").
  compute_done.
Defined.

(** ** The file-name loop of [writeMarkdownFile] *)

Lemma string_app_inj_l (s t1 t2 : string) : s +:+ t1 = s +:+ t2 → t1 = t2.
Proof.
  induction s as [|c s IH]; [done|].
  rewrite !string_app_cons. intros [= H]. by apply IH.
Qed.

Lemma candidate_inj (file : TFile) (i j : nat) :
  candidate file i = candidate file j → i = j.
Proof.
  destruct i as [|i], j as [|j]; unfold candidate, plain_name, numbered_name;
    intros Heq; [done| | |].
  - do 3 apply string_app_inj_l in Heq. discriminate Heq.
  - do 3 apply string_app_inj_l in Heq. discriminate Heq.
  - do 4 apply string_app_inj_l in Heq.
    apply string_app_inj_r in Heq as [Heq _]; [|done].
    by apply (inj pretty) in Heq.
Qed.

(** As many candidates as are taken, so many files the vault holds. *)
Lemma candidates_taken (fs : gmap string FileData) (file : TFile) (n : nat) :
  (∀ k, k < n → is_Some (fs !! candidate file k)) → n ≤ size fs.
Proof.
  intros Htaken.
  assert (NoDup (candidate file <$> seq 0 n)) as Hnodup.
  { apply NoDup_fmap_2_strong; [|apply NoDup_seq].
    intros i j _ _. apply candidate_inj. }
  assert (size (dom fs) = size fs) as <- by apply size_dom.
  assert (n = size (list_to_set (C:=gset string) (candidate file <$> seq 0 n))) as ->.
  { by rewrite size_list_to_set, length_fmap, length_seq. }
  apply subseteq_size. intros p Hp. apply elem_of_list_to_set in Hp.
  apply list_elem_of_fmap in Hp as (k & -> & Hk). apply elem_of_seq in Hk.
  apply elem_of_dom. apply Htaken. lia.
Qed.

Lemma filename_loop_run (fs : gmap string FileData) (file : TFile) :
  ∀ fuel i,
    (∀ k, k < i → is_Some (fs !! candidate file k)) →
    size fs < i + fuel →
    ∃ j,
      filename_loop fuel fs file i (candidate file i) = Some (candidate file j) ∧
      fs !! candidate file j = None ∧
      ∀ k, k < j → is_Some (fs !! candidate file k).
Proof.
  induction fuel as [|fuel IH]; intros i Htaken Hfuel.
  - pose proof (candidates_taken fs file i Htaken). lia.
  - cbn [filename_loop]. destruct (decide (is_Some (fs !! candidate file i))) as [Hi|Hi].
    + change (numbered_name file (S i)) with (candidate file (S i)).
      apply IH; [|lia]. intros k Hk.
      destruct (decide (k = i)) as [->|]; [done|]. apply Htaken. lia.
    + exists i. split; [done|]. split; [|done].
      by apply eq_None_not_Some.
Qed.

(** X5: The loop always ends, on the first name of the series [base.md],
    [base 1.md], [base 2.md], ... that no file of the vault has. *)
Theorem filename_loop_first_free (fs : gmap string FileData) (file : TFile) :
  ∃ j,
    filename_loop (S (size fs)) fs file 0 (plain_name file)
    = Some (candidate file j) ∧
    fs !! candidate file j = None ∧
    (∀ k, k < j → is_Some (fs !! candidate file k)) ∧
    ∀ fuel, size fs < fuel →
      filename_loop fuel fs file 0 (plain_name file) = Some (candidate file j).
Proof.
  destruct (filename_loop_run fs file (S (size fs)) 0) as (j & Hrun & Hfree & Hmin);
    [lia|lia|].
  exists j. split_and!; try done.
  intros fuel Hfuel.
  destruct (filename_loop_run fs file fuel 0) as (j' & Hrun' & Hfree' & Hmin');
    [lia|lia|].
  change (plain_name file) with (candidate file 0). rewrite Hrun'.
  destruct (Nat.lt_trichotomy j j') as [Hlt|[->|Hlt]]; [|done|].
  - apply Hmin' in Hlt. rewrite Hfree in Hlt. by destruct Hlt.
  - apply Hmin in Hlt. rewrite Hfree' in Hlt. by destruct Hlt.
Qed.

Example filename_loop_skips_taken :
  filename_loop 3
    {[ "notes/meeting.md" := TextData "a"; "notes/meeting 1.md" := TextData "b" ]}
    sample_file 0 (plain_name sample_file)
  = Some "notes/meeting 2.md".
Proof. reflexivity. Qed.

(** ** The vault writer *)

Lemma with_files_same (h : Host) : with_files h (files h) = h.
Proof. by destruct h. Qed.

Lemma with_files_twice (h : Host) (fs fs' : gmap string FileData) :
  with_files (with_files h fs) fs' = with_files h fs'.
Proof. done. Qed.

Lemma repeat_length (c : ascii) (n : nat) : String.length (JsStr.repeat c n) = n.
Proof. induction n as [|n IH]; cbn; [done|by f_equal]. Qed.

Lemma sample_available_free (fs : gmap string FileData) (filename : string) :
  fs !! sample_available fs filename = None.
Proof.
  apply eq_None_not_Some. intros Hin. apply elem_of_dom in Hin.
  apply elem_of_elements in Hin.
  apply (list_elem_of_fmap_2 String.length) in Hin.
  apply max_list_elem_of_le in Hin. fold (longest_path fs) in Hin.
  unfold sample_available in Hin.
  rewrite string_length_app, repeat_length in Hin. lia.
Qed.

Section VaultWriter.

Variable file_at : string → TFile.
Variable generateMarkdownLink : option TFile → string → option string → string.
Variable settings : SupernotePluginSettings.

(** [writeMarkdownFile], run: the loop finds the name, the page loop makes
    the text, and [vault.create] finds the path free. *)
Lemma writeMarkdownFile_run (file : TFile) (sn : SupernoteX)
    (imgs : option (list TFile)) (h : Host) :
  ∃ j,
    let filename := candidate file j in
    let content :=
      markdown_pages generateMarkdownLink settings imgs filename 0 (pages sn)
        (generateMarkdownLink (Some file) filename None +:+ nl) in
    writeMarkdownFile file_at generateMarkdownLink settings file sn imgs h
    = (Fulfilled (), with_files h (<[filename := TextData content]> (files h))) ∧
    files h !! filename = None ∧
    (∀ k, k < j → is_Some (files h !! candidate file k)).
Proof.
  destruct (filename_loop_run (files h) file (S (size (files h))) 0)
    as (j & Hrun & Hfree & Hmin); [lia|lia|].
  exists j. cbv zeta. unfold writeMarkdownFile.
  change (plain_name file) with (candidate file 0). rewrite Hrun.
  unfold unawaited, Vault_create, Vault_write. rewrite Hfree. done.
Qed.

(** X6: [writeMarkdownFile] never fails and never overwrites: it adds one text
    file to the vault, under the first free name of the series, and leaves
    every other file, the workers and the screen as they were. *)
Theorem writeMarkdownFile_adds_one_file (file : TFile) (sn : SupernoteX)
    (imgs : option (list TFile)) (h : Host) :
  ∃ j content,
    writeMarkdownFile file_at generateMarkdownLink settings file sn imgs h
    = (Fulfilled (),
       with_files h (<[candidate file j := TextData content]> (files h))) ∧
    files h !! candidate file j = None ∧
    (∀ k, k < j → is_Some (files h !! candidate file k)) ∧
    (∀ p data, files h !! p = Some data →
       <[candidate file j := TextData content]> (files h) !! p = Some data) ∧
    size (<[candidate file j := TextData content]> (files h)) = S (size (files h)).
Proof.
  destruct (writeMarkdownFile_run file sn imgs h) as (j & Hrun & Hfree & Hmin).
  exists j. eexists. split_and!; [exact Hrun|done|done| |].
  - intros p data Hp. rewrite lookup_insert_ne; [done|]. intros <-.
    by rewrite Hfree in Hp.
  - by apply map_size_insert_None.
Qed.

End VaultWriter.

(** ** What a call of [convertToImages] returns and leaves *)

Section CallOutcome.

Variable worker_answer : WorkerId → SupernoteX → list Z → WorkerReply.
Variable hardwareConcurrency : nat.

(** The block of the call sites, with its outcome: that of [processPages]
    on the pool the block made. *)
Lemma call_site_outcome (sn : SupernoteX) (σ : World) :
  let pid := next_pool σ in
  let ws := seq (next_worker σ) hardwareConcurrency in
  let pool := {| pool_id := pid; maxWorkers := hardwareConcurrency; workers := ws |} in
  let σ1 := {| next_worker := next_worker σ + hardwareConcurrency;
               next_pool := S pid; live := list_to_set ws ∪ live σ;
               log := log σ ++ NewPool pid :: (NewWorker <$> ws) |} in
  ∃ chunks,
    (processPages worker_answer pool sn (all_pages sn) σ1).1 ≠ Pending ∧
    (processPages worker_answer pool sn (all_pages sn) σ1).2
    = with_log σ1 (posts sn ws chunks) ∧
    writeImageFiles_convert worker_answer hardwareConcurrency sn σ
    = ((processPages worker_answer pool sn (all_pages sn) σ1).1,
       {| next_worker := next_worker σ + hardwareConcurrency;
          next_pool := S pid;
          live := (list_to_set ws ∪ live σ) ∖ list_to_set ws;
          log := log σ ++ (NewPool pid :: (NewWorker <$> ws))
                 ++ posts sn ws chunks
                 ++ (PoolTerminate pid :: (WorkerTerminate <$> ws)) |}).
Proof.
  intros pid ws pool σ1.
  destruct (processPages_settles worker_answer pool sn (all_pages sn) σ1)
    as (outcome & chunks & Hrun & Hsettled); [apply NoDup_seq|].
  exists chunks. rewrite Hrun. cbn [fst snd]. split_and!; [done|done|].
  unfold writeImageFiles_convert, ImageConverter_new.
  unfold mbind at 1 2, M_bind at 1 2. rewrite WorkerPool_new_run.
  cbn [mret M_ret]. fold pid ws. fold pool. fold σ1.
  eapply try_finally_settled; [|done|].
  - rewrite convertToImages_run. exact Hrun.
  - unfold ImageConverter_terminate, mbind, M_bind.
    rewrite WorkerPool_terminate_run. cbn. unfold mret, M_ret. f_equal. f_equal.
    by rewrite <- !app_assoc.
Qed.

(** Workers that all answer make every promise of the call fulfilled. *)
Lemma answers_all_fulfilled (sn : SupernoteX) (ws : list WorkerId) :
  (∀ w chunk, ∃ batch, deliver (worker_answer w sn chunk) = Fulfilled batch) →
  ∀ chunks, ∃ results, answers worker_answer sn ws chunks = Fulfilled <$> results.
Proof.
  intros Hall. induction ws as [|w ws IH]; intros [|chunk chunks]; cbn.
  - by exists [].
  - by exists [].
  - by exists [].
  - destruct (Hall w chunk) as [batch ->]. destruct (IH chunks) as [results Hr].
    exists (batch :: results). cbn. f_equal. exact Hr.
Qed.

(** A call succeeds when the pool has a worker and every worker answers
    with one image per page: it returns as many images as the note has
    pages, each of them one that a worker sent. *)
Lemma call_site_succeeds (P : Image → Prop) (sn : SupernoteX) (σ : World) :
  0 < hardwareConcurrency →
  (∀ w chunk, ∃ data,
     worker_answer w sn chunk = Message data ∧ truthy (error data) = false ∧
     length (images data) = length chunk ∧ Forall P (images data)) →
  ∃ images,
    (writeImageFiles_convert worker_answer hardwareConcurrency sn σ).1
    = Fulfilled images ∧
    length images = length (pages sn) ∧ Forall P images.
Proof.
  intros Hhc Hw.
  destruct (call_site_outcome sn σ) as (chunks0 & _ & _ & ->). cbn [fst].
  set (ws := seq (next_worker σ) hardwareConcurrency).
  set (pool := {| pool_id := next_pool σ; maxWorkers := hardwareConcurrency;
                  workers := ws |}).
  match goal with |- context [processPages _ _ _ _ ?w] => set (σ1 := w) end.
  destruct (processPages_live worker_answer sn pool (all_pages sn) σ1)
    as (chunks & _ & Hlen & Hcat & ->);
    [apply NoDup_seq|subst pool ws; cbn [workers]; by rewrite length_seq|].
  cbn [fst]. change (workers pool) with ws in *.
  assert (∀ w chunk, ∃ batch, deliver (worker_answer w sn chunk) = Fulfilled batch)
    as Hdel.
  { intros w chunk. destruct (Hw w chunk) as (data & -> & Ht & _).
    exists (images data). cbn. unfold onmessage. by rewrite Ht. }
  destruct (answers_all_fulfilled sn ws Hdel chunks) as [results Hres].
  pose proof (proj2 (Promise_all_Fulfilled _ _) Hres) as Hall. rewrite Hall.
  exists (concat results). split; [done|].
  apply answers_fulfilled in Hres; [|done].
  assert (Forall2 (λ batch chunk, length batch = length chunk ∧ Forall P batch)
            results chunks) as Hpairs.
  { eapply Forall2_impl; [exact Hres|]. cbn. intros batch chunk (w & _ & Hd).
    destruct (Hw w chunk) as (data & Hans & Ht & Hl & HP).
    rewrite Hans in Hd. cbn in Hd. unfold onmessage in Hd. rewrite Ht in Hd.
    by injection Hd as <-. }
  split.
  - transitivity (length (concat chunks)).
    + apply length_concat_Forall2. eapply Forall2_impl; [exact Hpairs|].
      cbn. by intros ?? [? _].
    + rewrite Hcat. unfold all_pages. by rewrite length_fmap, length_seq.
  - clear -Hpairs. induction Hpairs as [|batch chunk results chunks [_ HP] _ IH];
      cbn; [done|]. by apply Forall_app.
Qed.

(** A call on a host that reports no processor: the pool is empty, and a
    note with a page cannot be converted. *)
Lemma call_site_without_workers (sn : SupernoteX) (σ : World) :
  hardwareConcurrency = 0 → pages sn ≠ [] →
  (writeImageFiles_convert worker_answer hardwareConcurrency sn σ).1
  = Rejected TypeError.
Proof.
  intros Hhc Hpages.
  destruct (call_site_outcome sn σ) as (chunks0 & _ & _ & ->). cbn [fst].
  rewrite processPages_terminated by (by rewrite Hhc).
  unfold all_pages. destruct (pages sn); [done|]. done.
Qed.

End CallOutcome.

(** ** The plugin on the vault *)

Lemma H_bind_fulfilled {A B : Type} (m : H A) (f : A → H B) (h h' : Host) (a : A) :
  m h = (Fulfilled a, h') → (m ≫= f) h = f a h'.
Proof. intros Hm. unfold mbind, H_bind. by rewrite Hm. Qed.

Lemma H_bind_rejected {A B : Type} (m : H A) (f : A → H B) (h h' : Host) (e : JsError) :
  m h = (Rejected e, h') → (m ≫= f) h = (Rejected e, h').
Proof. intros Hm. unfold mbind, H_bind. by rewrite Hm. Qed.

Lemma lift_run {A : Type} (m : M A) (h : Host) :
  lift m h = ((m (world h)).1, with_world h (m (world h)).2).
Proof. unfold lift. by destruct (m (world h)). Qed.

Section SaveImages.

Variable atob : string → JsError + string.
Variable file_at : string → TFile.
Variable getAvailablePath : gmap string FileData → string → string.

(** The host hands out paths that are free, and the handle of a path
    names that path. *)
Hypothesis available_free : ∀ fs filename, fs !! getAvailablePath fs filename = None.
Hypothesis file_at_path : ∀ p, path (file_at p) = p.

Lemma save_images_prefix (file : TFile) :
  ∀ (good : list Image) (i : nat) (imgs : list TFile) (h : Host),
    Forall (decodable atob) good →
    ∃ new fs,
      length new = length good ∧
      files h ⊆ fs ∧
      size fs = size (files h) + length good ∧
      Forall2 (λ img image, ∃ buffer,
          dataUrlToBuffer atob image = inr buffer ∧
          fs !! path img = Some (BinaryData buffer)) new good ∧
      ∀ tail,
        save_images atob file_at getAvailablePath file (good ++ tail) i imgs h
        = save_images atob file_at getAvailablePath file tail (i + length good)
            (imgs ++ new) (with_files h fs).
Proof.
  induction good as [|image good IH]; intros i imgs h Hgood.
  - exists [], (files h). split_and!.
    + done.
    + done.
    + cbn [length]. lia.
    + constructor.
    + intros tail. cbn [app length].
      by rewrite Nat.add_0_r, app_nil_r, with_files_same.
  - apply Forall_cons in Hgood as [[buffer Hbuffer] Hgood].
    set (filename := getAvailablePath (files h)
                       (basename file +:+ "-" +:+ JsStr.of_nat i +:+ ".png")).
    set (h1 := with_files h (<[filename := BinaryData buffer]> (files h))).
    destruct (IH (S i) (imgs ++ [file_at filename]) h1 Hgood)
      as (new & fs & Hlen & Hsub & Hsize & Hfiles & Hrun).
    assert (files h !! filename = None) as Hfree by apply available_free.
    exists (file_at filename :: new), fs. split_and!.
    + cbn. by rewrite Hlen.
    + etrans; [|exact Hsub]. by apply insert_subseteq.
    + rewrite Hsize. cbn [files h1 with_files].
      rewrite map_size_insert_None by done. cbn [length]. lia.
    + constructor; [|done]. exists buffer. split; [done|].
      rewrite file_at_path. eapply lookup_weaken; [|exact Hsub].
      apply lookup_insert_eq.
    + intros tail. cbn [app save_images].
      unfold mbind at 1, H_bind at 1. unfold getAvailablePathForAttachment.
      fold filename. unfold mbind at 1, H_bind at 1. rewrite Hbuffer.
      cbn [returned mret H_ret].
      unfold mbind at 1, H_bind at 1. unfold Vault_createBinary, Vault_write.
      rewrite Hfree. fold h1. rewrite Hrun.
      rewrite <- app_assoc. cbn [app length]. f_equal. lia.
Qed.

(** X7: When every image decodes, the loop saves them all: it returns one
    file per image, in order, each holding the bytes of its image, and
    every file the vault had is still there, unchanged. *)
Theorem save_images_saves_all (file : TFile) (images : list Image) (h : Host) :
  Forall (decodable atob) images →
  ∃ imgs fs,
    save_images atob file_at getAvailablePath file images 0 [] h
    = (Fulfilled imgs, with_files h fs) ∧
    length imgs = length images ∧
    files h ⊆ fs ∧
    size fs = size (files h) + length images ∧
    Forall2 (λ img image, ∃ buffer,
        dataUrlToBuffer atob image = inr buffer ∧
        fs !! path img = Some (BinaryData buffer)) imgs images.
Proof.
  intros Hall.
  destruct (save_images_prefix file images 0 [] h Hall)
    as (new & fs & Hlen & Hsub & Hsize & Hfiles & Hrun).
  exists new, fs. split_and!; try done.
  specialize (Hrun []). rewrite app_nil_r in Hrun. rewrite Hrun. done.
Qed.

(** X8: An image that does not decode stops the loop: the call fails with the
    error of [atob], the images before it are already in the vault, and
    none of those after it is ever written. *)
Theorem save_images_stops_at_bad_image (file : TFile) (good rest : list Image)
    (bad : Image) (e : JsError) (h : Host) :
  Forall (decodable atob) good →
  dataUrlToBuffer atob bad = inl e →
  ∃ fs,
    save_images atob file_at getAvailablePath file (good ++ bad :: rest) 0 [] h
    = (Rejected e, with_files h fs) ∧
    files h ⊆ fs ∧
    size fs = size (files h) + length good.
Proof.
  intros Hgood Hbad.
  destruct (save_images_prefix file good 0 [] h Hgood)
    as (new & fs & Hlen & Hsub & Hsize & Hfiles & Hrun).
  exists fs. split_and!; try done.
  rewrite Hrun. cbn [save_images].
  unfold mbind at 1, H_bind at 1. unfold getAvailablePathForAttachment.
  unfold mbind at 1, H_bind at 1. by rewrite Hbad.
Qed.

End SaveImages.

Lemma save_images_saves_all_witness :
  ∃ imgs fs,
    save_images sample_atob sample_file_at sample_available sample_file
      ["data:,AB"; "data:,C"] 0 [] (sample_host ∅)
    = (Fulfilled imgs, with_files (sample_host ∅) fs) ∧
    length imgs = length ["data:,AB"; "data:,C"] ∧
    files (sample_host ∅) ⊆ fs ∧
    size fs = size (files (sample_host ∅)) + length ["data:,AB"; "data:,C"] ∧
    Forall2 (λ img image, ∃ buffer,
        dataUrlToBuffer sample_atob image = inr buffer ∧
        fs !! path img = Some (BinaryData buffer)) imgs ["data:,AB"; "data:,C"].
Proof.
  apply (save_images_saves_all sample_atob sample_file_at sample_available
           sample_available_free (λ p, eq_refl)).
  repeat constructor; eexists; reflexivity.
Defined.

Lemma save_images_stops_at_bad_image_witness :
  ∃ fs,
    save_images sample_atob sample_file_at sample_available sample_file
      (["data:,AB"] ++ "no comma" :: ["data:,C"]) 0 [] (sample_host ∅)
    = (Rejected (Error "InvalidCharacterError"), with_files (sample_host ∅) fs) ∧
    files (sample_host ∅) ⊆ fs ∧
    size fs = size (files (sample_host ∅)) + length ["data:,AB"].
Proof.
  apply (save_images_stops_at_bad_image sample_atob sample_file_at sample_available
           sample_available_free (λ p, eq_refl)).
  - repeat constructor; eexists; reflexivity.
  - reflexivity.
Defined.

Section Attach.

Variable worker_answer : WorkerId → SupernoteX → list Z → WorkerReply.
Variable hardwareConcurrency : nat.
Variable atob : string → JsError + string.
Variable file_at : string → TFile.
Variable generateMarkdownLink : option TFile → string → option string → string.
Variable getAvailablePath : gmap string FileData → string → string.
Variable SupernoteX_new : list nat → JsError + SupernoteX.
Variable settings : SupernotePluginSettings.

Hypothesis available_free : ∀ fs filename, fs !! getAvailablePath fs filename = None.
Hypothesis file_at_path : ∀ p, path (file_at p) = p.

Lemma writeImageFiles_run (file : TFile) (sn : SupernoteX) (h : Host) :
  0 < hardwareConcurrency →
  renders worker_answer atob sn →
  ∃ imgs fs,
    writeImageFiles worker_answer hardwareConcurrency atob file_at getAvailablePath
      file sn h
    = (Fulfilled imgs,
       with_files
         (with_world h
            (writeImageFiles_convert worker_answer hardwareConcurrency sn (world h)).2)
         fs) ∧
    length imgs = length (pages sn) ∧
    files h ⊆ fs ∧
    size fs = size (files h) + length (pages sn) ∧
    Forall (λ img, ∃ buffer, fs !! path img = Some (BinaryData buffer)) imgs.
Proof.
  intros Hhc Hrenders.
  destruct (call_site_succeeds worker_answer hardwareConcurrency (decodable atob)
              sn (world h) Hhc Hrenders) as (images & Hconv & Hlen & Hdec).
  set (h1 := with_world h
    (writeImageFiles_convert worker_answer hardwareConcurrency sn (world h)).2).
  destruct (save_images_prefix atob file_at getAvailablePath available_free
              file_at_path file images 0 [] h1 Hdec)
    as (imgs & fs & Hlen' & Hsub & Hsize & Hfiles & Hrun).
  specialize (Hrun []). rewrite app_nil_r in Hrun.
  exists imgs, fs. split_and!.
  - unfold writeImageFiles.
    rewrite (H_bind_fulfilled _ _ h h1 images); [by rewrite Hrun|].
    rewrite lift_run. by rewrite Hconv.
  - by rewrite Hlen', Hlen.
  - done.
  - by rewrite Hsize, Hlen.
  - clear -Hfiles. induction Hfiles as [|img image imgs images (b & _ & Hb) _ IH];
      constructor; [by exists b|done].
Qed.

(** X9: With a worker in the pool and workers that render, [writeImageFiles]
    returns one file per page of the note, each a binary file of the vault,
    and changes no file the vault had; the workers are left as the call of
    [convertToImages] leaves them. *)
Theorem writeImageFiles_one_file_per_page (file : TFile) (sn : SupernoteX) (h : Host) :
  0 < hardwareConcurrency →
  renders worker_answer atob sn →
  ∃ imgs h',
    writeImageFiles worker_answer hardwareConcurrency atob file_at getAvailablePath
      file sn h = (Fulfilled imgs, h') ∧
    world h'
    = (writeImageFiles_convert worker_answer hardwareConcurrency sn (world h)).2 ∧
    screen h' = screen h ∧
    length imgs = length (pages sn) ∧
    (∀ p data, files h !! p = Some data → files h' !! p = Some data) ∧
    size (files h') = size (files h) + length (pages sn) ∧
    (∀ img, img ∈ imgs → ∃ buffer, files h' !! path img = Some (BinaryData buffer)).
Proof.
  intros Hhc Hrenders.
  destruct (writeImageFiles_run file sn h Hhc Hrenders)
    as (imgs & fs & Hrun & Hlen & Hsub & Hsize & Hfiles).
  eexists imgs, _. split; [exact Hrun|]. cbn [world screen files with_files with_world].
  split_and!; try done.
  - intros p data Hp. by eapply lookup_weaken.
  - intros img Himg. by eapply Forall_forall in Hfiles.
Qed.

Lemma readBinary_run (file : TFile) (buffer : list nat) (h : Host) :
  files h !! path file = Some (BinaryData buffer) →
  Vault_readBinary file h = (Fulfilled buffer, h).
Proof. intros Hfile. unfold Vault_readBinary. by rewrite Hfile. Qed.

(** X10: Attaching a note that the workers render: the vault gains one image
    file per page and one markdown file, nothing it held is changed, and
    the markdown is written with an image for every page, none of them
    [undefined]. *)
Theorem attachNoteFiles_attaches (file : TFile) (buffer : list nat)
    (sn : SupernoteX) (h : Host) :
  files h !! path file = Some (BinaryData buffer) →
  SupernoteX_new buffer = inr sn →
  0 < hardwareConcurrency →
  renders worker_answer atob sn →
  ∃ imgs fs j,
    let filename := candidate file j in
    let content :=
      markdown_pages generateMarkdownLink settings (Some imgs) filename 0 (pages sn)
        (generateMarkdownLink (Some file) filename None +:+ nl) in
    attachNoteFiles worker_answer hardwareConcurrency atob file_at
      generateMarkdownLink getAvailablePath SupernoteX_new settings file h
    = (Fulfilled (),
       with_files
         (with_world h
            (writeImageFiles_convert worker_answer hardwareConcurrency sn (world h)).2)
         (<[filename := TextData content]> fs)) ∧
    length imgs = length (pages sn) ∧
    (∀ i, i < length (pages sn) → is_Some (imgs !! i)) ∧
    files h ⊆ <[filename := TextData content]> fs ∧
    size (<[filename := TextData content]> fs)
    = size (files h) + length (pages sn) + 1.
Proof.
  intros Hfile Hparse Hhc Hrenders.
  destruct (writeImageFiles_run file sn h Hhc Hrenders)
    as (imgs & fs & Hrun & Hlen & Hsub & Hsize & _).
  set (h2 := with_files
    (with_world h
       (writeImageFiles_convert worker_answer hardwareConcurrency sn (world h)).2) fs)
    in *.
  destruct (writeMarkdownFile_run file_at generateMarkdownLink settings
              file sn (Some imgs) h2) as (j & Hmd & Hfree & _).
  cbv zeta in Hmd. cbn [files h2 with_files] in Hmd, Hfree.
  exists imgs, fs, j. cbv zeta.
  split_and!.
  - unfold attachNoteFiles.
    rewrite (H_bind_fulfilled _ _ h h buffer) by (by apply readBinary_run).
    rewrite (H_bind_fulfilled _ _ h h sn) by (by rewrite Hparse).
    rewrite (H_bind_fulfilled _ _ h h2 imgs) by done.
    unfold unawaited. by rewrite Hmd.
  - done.
  - intros i Hi. apply lookup_lt_is_Some_2. lia.
  - etrans; [exact Hsub|]. by apply insert_subseteq.
  - rewrite map_size_insert_None by done. rewrite Hsize. lia.
Qed.

End Attach.

Section AttachEdges.

Variable worker_answer : WorkerId → SupernoteX → list Z → WorkerReply.
Variable atob : string → JsError + string.
Variable file_at : string → TFile.
Variable generateMarkdownLink : option TFile → string → option string → string.
Variable getAvailablePath : gmap string FileData → string → string.
Variable SupernoteX_new : list nat → JsError + SupernoteX.
Variable settings : SupernotePluginSettings.

(** X11: On a host that reports no processor the pool has no worker: attaching
    a note that has a page fails with the TypeError of the missing worker,
    and no file is written. *)
Theorem attachNoteFiles_without_workers (file : TFile) (buffer : list nat)
    (sn : SupernoteX) (h : Host) :
  files h !! path file = Some (BinaryData buffer) →
  SupernoteX_new buffer = inr sn →
  pages sn ≠ [] →
  ∃ h',
    attachNoteFiles worker_answer 0 atob file_at generateMarkdownLink
      getAvailablePath SupernoteX_new settings file h
    = (Rejected TypeError, h') ∧
    files h' = files h ∧
    screen h' = screen h ∧
    messages_posted (log (world h')) = messages_posted (log (world h)) ∧
    live (world h') = live (world h).
Proof.
  intros Hfile Hparse Hpages.
  pose proof (call_site_without_workers worker_answer 0 sn (world h) eq_refl Hpages)
    as Hconv.
  destruct (call_site_outcome worker_answer 0 sn (world h))
    as (chunks & _ & _ & Hrun).
  eexists. split.
  - unfold attachNoteFiles.
    rewrite (H_bind_fulfilled _ _ h h buffer) by (by apply readBinary_run).
    rewrite (H_bind_fulfilled _ _ h h sn) by (by rewrite Hparse).
    apply H_bind_rejected. unfold writeImageFiles.
    apply H_bind_rejected. rewrite lift_run. by rewrite Hconv.
  - cbn [files screen world with_world]. rewrite Hrun. cbn [snd log live].
    split_and!; [done|done| |set_solver].
    unfold messages_posted. cbn [seq fmap list_fmap posts zip_with].
    rewrite !omap_app. cbn. by rewrite !app_nil_r.
Qed.

(** X12: Attaching the markdown alone makes no worker: the vault gains the one
    markdown file, written without image links and so the same whatever the
    settings, and all else is as it was. *)
Theorem attachMarkdownFile_makes_no_worker (file : TFile) (buffer : list nat)
    (sn : SupernoteX) (h : Host) :
  files h !! path file = Some (BinaryData buffer) →
  SupernoteX_new buffer = inr sn →
  ∃ j content,
    attachMarkdownFile file_at generateMarkdownLink SupernoteX_new settings file h
    = (Fulfilled (),
       with_files h (<[candidate file j := TextData content]> (files h))) ∧
    files h !! candidate file j = None ∧
    ∀ settings',
      attachMarkdownFile file_at generateMarkdownLink SupernoteX_new settings' file h
      = attachMarkdownFile file_at generateMarkdownLink SupernoteX_new settings file h.
Proof.
  intros Hfile Hparse.
  assert (∀ s filename i ps content,
    markdown_pages generateMarkdownLink s None filename i ps content
    = markdown_pages generateMarkdownLink settings None filename i ps content) as Hsame.
  { intros s filename i ps. revert i.
    induction ps as [|page ps IH]; intros i content; cbn; [done|]. apply IH. }
  assert (∀ s,
    attachMarkdownFile file_at generateMarkdownLink SupernoteX_new s file h
    = unawaited (writeMarkdownFile file_at generateMarkdownLink s file sn None) h)
    as Hrun.
  { intros s. unfold attachMarkdownFile.
    rewrite (H_bind_fulfilled _ _ h h buffer) by (by apply readBinary_run).
    by rewrite (H_bind_fulfilled _ _ h h sn) by (by rewrite Hparse). }
  destruct (writeMarkdownFile_run file_at generateMarkdownLink settings file sn None h)
    as (j & Hmd & Hfree & _).
  exists j. eexists. split_and!.
  - rewrite Hrun. unfold unawaited. rewrite Hmd. reflexivity.
  - done.
  - intros settings'. rewrite !Hrun. unfold unawaited, writeMarkdownFile.
    destruct (filename_loop _ _ _ _ _); [|done].
    by rewrite Hsame.
Qed.

(** X13: A note that is not in the vault, or that the parser refuses, is not
    attached: the call fails and nothing at all is changed. *)
Theorem attachNoteFiles_unreadable (hardwareConcurrency : nat) (file : TFile)
    (h : Host) :
  (files h !! path file = None ∨
   ∃ buffer e, files h !! path file = Some (BinaryData buffer) ∧
               SupernoteX_new buffer = inl e) →
  ∃ e,
    attachNoteFiles worker_answer hardwareConcurrency atob file_at
      generateMarkdownLink getAvailablePath SupernoteX_new settings file h
    = (Rejected e, h).
Proof.
  intros [Hmissing|(buffer & e & Hfile & Hparse)]; eexists; unfold attachNoteFiles.
  - apply H_bind_rejected. unfold Vault_readBinary. by rewrite Hmissing.
  - rewrite (H_bind_fulfilled _ _ h h buffer) by (by apply readBinary_run).
    apply H_bind_rejected. by rewrite Hparse.
Qed.

End AttachEdges.

(** ** [exportToPDF] *)

Lemma pdf_step_text (st : list (list Image) * list Image) (content : string)
    (width : nat) :
  foldl pdf_step st
    [PdfSetFontSize 100; PdfSetTextColor 0 0 0 0; PdfText content 20 20 width;
     PdfSetTextColor 0 0 0 1]
  = st.
Proof. done. Qed.

Lemma pdf_pages_layout (sn : SupernoteX) :
  ∀ (images : list Image) (i : nat) (pdf : list PdfOp) (placed : list Image),
    length placed = i →
    i + length images ≤ length (pages sn) →
    (foldl pdf_step ([], []) pdf).1 ++ [(foldl pdf_step ([], []) pdf).2]
    = (if decide (i = 0) then [[]] else (λ image, [image]) <$> placed) →
    ∃ ops,
      pdf_pages sn images i pdf = inr ops ∧
      (foldl pdf_step ([], []) ops).1 ++ [(foldl pdf_step ([], []) ops).2]
      = (if decide (i + length images = 0) then [[]]
         else (λ image, [image]) <$> (placed ++ images)) ∧
      ∃ more, ops = pdf ++ more.
Proof.
  intros images.
  induction images as [|image images IH]; intros i pdf placed Hdone Hbound Hinv.
  - exists pdf. cbn [pdf_pages length]. rewrite Nat.add_0_r, app_nil_r.
    split_and!; [done|done|]. exists []. by rewrite app_nil_r.
  - cbn [pdf_pages]. cbn [length] in Hbound.
    destruct (lookup_lt_is_Some_2 (pages sn) i ltac:(lia)) as [page Hpage].
    rewrite Hpage.
    set (pdf1 := if decide (0 < i) then pdf ++ [PdfAddPage] else pdf).
    set (pdf2 := if has_text page
                 then pdf1 ++ [PdfSetFontSize 100; PdfSetTextColor 0 0 0 0;
                               PdfText (text page) 20 20 (pageWidth sn);
                               PdfSetTextColor 0 0 0 1]
                 else pdf1).
    set (pdf3 := pdf2 ++ [PdfAddImage image 0 0 (pageWidth sn) (pageHeight sn)]).
    assert (foldl pdf_step ([], []) pdf2 = foldl pdf_step ([], []) pdf1) as Htext.
    { subst pdf2. destruct (has_text page); [|done].
      by rewrite foldl_app, pdf_step_text. }
    assert ((foldl pdf_step ([], []) pdf3).1 ++ [(foldl pdf_step ([], []) pdf3).2]
            = (λ image, [image]) <$> (placed ++ [image])) as Hinv3.
    { subst pdf3. rewrite foldl_app, Htext. cbn [foldl pdf_step fst snd].
      subst pdf1. destruct (decide (0 < i)) as [Hi|Hi].
      - rewrite foldl_app. cbn [foldl pdf_step fst snd].
        rewrite Hinv, decide_False by lia. by rewrite fmap_app.
      - assert (i = 0) as -> by lia. rewrite decide_True in Hinv by done.
        apply length_zero_iff_nil in Hdone as ->.
        destruct (foldl pdf_step ([], []) pdf) as [finished current].
        cbn [fst snd] in *. destruct finished as [|? [|??]]; [|done..].
        by injection Hinv as ->. }
    destruct (IH (S i) pdf3 (placed ++ [image])) as (ops & Hrun & Hlayout & more & Hmore).
    + rewrite length_app. cbn. lia.
    + lia.
    + destruct (decide (S i = 0)); [lia|exact Hinv3].
    + exists ops. split_and!.
      * done.
      * rewrite Hlayout. cbn [length].
        destruct (decide (S i + length images = 0)); [lia|].
        destruct (decide (i + S (length images) = 0)); [lia|].
        by rewrite <- app_assoc.
      * subst pdf3 pdf2 pdf1. rewrite Hmore.
        destruct (has_text page), (decide (0 < i));
          rewrite <- ?app_assoc; by eexists.
Qed.

(** X14: The page loop puts every image on a page of its own, in order: image
    [i] comes after exactly [i] calls of [addPage]; a note without pages
    leaves the one blank page the document starts with. *)
Theorem pdf_pages_one_image_per_page (sn : SupernoteX) (images : list Image) :
  length images ≤ length (pages sn) →
  ∃ ops,
    pdf_pages sn images 0 [PdfNew (pageWidth sn) (pageHeight sn)] = inr ops ∧
    pdf_layout ops
    = (if decide (images = []) then [[]] else (λ image, [image]) <$> images) ∧
    head ops = Some (PdfNew (pageWidth sn) (pageHeight sn)).
Proof.
  intros Hbound.
  destruct (pdf_pages_layout sn images 0 [PdfNew (pageWidth sn) (pageHeight sn)] [])
    as (ops & Hrun & Hlayout & more & ->); [done|cbn; lia|done|].
  eexists. split; [exact Hrun|]. split; [|done].
  unfold pdf_layout.
  destruct (foldl pdf_step ([], []) _) as [finished current]. cbn [fst snd] in Hlayout.
  rewrite Hlayout. cbn [Nat.add app].
  destruct images; [done|]. cbn [length]. by rewrite decide_False by lia.
Qed.

Lemma pdf_pages_one_image_per_page_witness :
  ∃ ops,
    pdf_pages (sample_note 2) ["a"; "b"] 0
      [PdfNew (pageWidth (sample_note 2)) (pageHeight (sample_note 2))] = inr ops ∧
    pdf_layout ops
    = (if decide (["a"; "b"] = []) then [[]] else (λ image, [image]) <$> ["a"; "b"]) ∧
    head ops = Some (PdfNew (pageWidth (sample_note 2)) (pageHeight (sample_note 2))).
Proof. apply (pdf_pages_one_image_per_page (sample_note 2) ["a"; "b"]). cbn. lia. Defined.

(** X15: More images than pages: the loop reads the text of a page that is not
    there and throws, whatever it was given so far. *)
Theorem pdf_pages_more_images_than_pages (sn : SupernoteX) :
  ∀ (images : list Image) (i : nat) (pdf : list PdfOp),
    i ≤ length (pages sn) →
    length (pages sn) < i + length images →
    pdf_pages sn images i pdf = inl TypeError.
Proof.
  intros images.
  induction images as [|image images IH]; intros i pdf Hi Hmore.
  - cbn in Hmore. lia.
  - cbn [pdf_pages]. destruct (pages sn !! i) as [page|] eqn:Hpage; [|done].
    apply lookup_lt_Some in Hpage.
    apply IH; [lia|]. cbn [length] in Hmore. lia.
Qed.

Lemma pdf_pages_more_images_than_pages_witness :
  pdf_pages (sample_note 1) ["a"; "b"] 0 [] = inl TypeError.
Proof. apply pdf_pages_more_images_than_pages; cbn; lia. Defined.

(** ** The sample host, run *)

(** A worker that sends data URLs renders every note. *)
Lemma url_worker_renders (sn : SupernoteX) : renders url_worker sample_atob sn.
Proof.
  intros w chunk. eexists. split_and!; [reflexivity|reflexivity| |].
  - cbn [images]. by rewrite length_fmap.
  - cbn [images]. apply Forall_fmap, Forall_true. intros page. by eexists.
Qed.

Lemma sample_vault_note :
  files (sample_host sample_vault) !! path sample_file = Some (BinaryData [1; 2; 3]).
Proof. reflexivity. Qed.

Lemma writeImageFiles_one_file_per_page_witness :
  ∃ imgs h',
    writeImageFiles url_worker 2 sample_atob sample_file_at sample_available
      sample_file (sample_note 3) (sample_host sample_vault) = (Fulfilled imgs, h') ∧
    world h'
    = (writeImageFiles_convert url_worker 2 (sample_note 3)
         (world (sample_host sample_vault))).2 ∧
    screen h' = screen (sample_host sample_vault) ∧
    length imgs = length (pages (sample_note 3)) ∧
    (∀ p data, files (sample_host sample_vault) !! p = Some data →
       files h' !! p = Some data) ∧
    size (files h')
    = size (files (sample_host sample_vault)) + length (pages (sample_note 3)) ∧
    (∀ img, img ∈ imgs → ∃ buffer, files h' !! path img = Some (BinaryData buffer)).
Proof.
  apply (writeImageFiles_one_file_per_page url_worker 2 sample_atob sample_file_at
           sample_available sample_available_free (λ p, eq_refl)).
  - lia.
  - apply url_worker_renders.
Defined.

Lemma attachNoteFiles_attaches_witness :
  ∃ imgs fs j,
    let filename := candidate sample_file j in
    let content :=
      markdown_pages sample_link DEFAULT_SETTINGS (Some imgs) filename 0
        (pages (sample_note 3))
        (sample_link (Some sample_file) filename None +:+ nl) in
    attachNoteFiles url_worker 2 sample_atob sample_file_at sample_link
      sample_available (sample_parser 3) DEFAULT_SETTINGS sample_file
      (sample_host sample_vault)
    = (Fulfilled (),
       with_files
         (with_world (sample_host sample_vault)
            (writeImageFiles_convert url_worker 2 (sample_note 3)
               (world (sample_host sample_vault))).2)
         (<[filename := TextData content]> fs)) ∧
    length imgs = length (pages (sample_note 3)) ∧
    (∀ i, i < length (pages (sample_note 3)) → is_Some (imgs !! i)) ∧
    files (sample_host sample_vault) ⊆ <[filename := TextData content]> fs ∧
    size (<[filename := TextData content]> fs)
    = size (files (sample_host sample_vault)) + length (pages (sample_note 3)) + 1.
Proof.
  apply (attachNoteFiles_attaches url_worker 2 sample_atob sample_file_at sample_link
           sample_available (sample_parser 3) DEFAULT_SETTINGS
           sample_available_free (λ p, eq_refl) sample_file [1; 2; 3]).
  - exact sample_vault_note.
  - reflexivity.
  - lia.
  - apply url_worker_renders.
Defined.

Lemma attachNoteFiles_without_workers_witness :
  ∃ h',
    attachNoteFiles url_worker 0 sample_atob sample_file_at sample_link
      sample_available (sample_parser 3) DEFAULT_SETTINGS sample_file
      (sample_host sample_vault)
    = (Rejected TypeError, h') ∧
    files h' = files (sample_host sample_vault) ∧
    screen h' = screen (sample_host sample_vault) ∧
    messages_posted (log (world h'))
    = messages_posted (log (world (sample_host sample_vault))) ∧
    live (world h') = live (world (sample_host sample_vault)).
Proof.
  apply (attachNoteFiles_without_workers url_worker sample_atob sample_file_at
           sample_link sample_available (sample_parser 3) DEFAULT_SETTINGS
           sample_file [1; 2; 3] (sample_note 3)).
  - exact sample_vault_note.
  - reflexivity.
  - discriminate.
Defined.

Lemma attachMarkdownFile_makes_no_worker_witness :
  ∃ j content,
    attachMarkdownFile sample_file_at sample_link (sample_parser 3) DEFAULT_SETTINGS
      sample_file (sample_host sample_vault)
    = (Fulfilled (),
       with_files (sample_host sample_vault)
         (<[candidate sample_file j := TextData content]>
            (files (sample_host sample_vault)))) ∧
    files (sample_host sample_vault) !! candidate sample_file j = None ∧
    ∀ settings',
      attachMarkdownFile sample_file_at sample_link (sample_parser 3) settings'
        sample_file (sample_host sample_vault)
      = attachMarkdownFile sample_file_at sample_link (sample_parser 3) DEFAULT_SETTINGS
          sample_file (sample_host sample_vault).
Proof.
  apply (attachMarkdownFile_makes_no_worker sample_file_at sample_link
           (sample_parser 3) DEFAULT_SETTINGS sample_file [1; 2; 3] (sample_note 3)).
  - exact sample_vault_note.
  - reflexivity.
Defined.

Lemma attachNoteFiles_unreadable_witness :
  ∃ e,
    attachNoteFiles url_worker 2 sample_atob sample_file_at sample_link
      sample_available (sample_parser 3) DEFAULT_SETTINGS sample_file (sample_host ∅)
    = (Rejected e, sample_host ∅).
Proof.
  apply (attachNoteFiles_unreadable url_worker sample_atob sample_file_at sample_link
           sample_available (sample_parser 3) DEFAULT_SETTINGS 2 sample_file
           (sample_host ∅)).
  left. reflexivity.
Defined.

(** ** [exportToPDF], whole *)

Section ExportToPDF.

Variable worker_answer : WorkerId → SupernoteX → list Z → WorkerReply.
Variable hardwareConcurrency : nat.
Variable file_at : string → TFile.
Variable getAvailablePath : gmap string FileData → string → string.
Variable SupernoteX_new : list nat → JsError + SupernoteX.
Variable pdf_output : list PdfOp → list nat.

Hypothesis available_free : ∀ fs filename, fs !! getAvailablePath fs filename = None.

(** X16: Exporting a note whose pages the workers render: the vault gains one
    binary file, the output of a document that starts with the page size of
    the note and has one page per page of the note, the image of that page
    on it; every file the vault had is kept, and nothing is shown. *)
Theorem exportToPDF_writes_one_pdf (file : TFile) (buffer : list nat)
    (sn : SupernoteX) (h : Host) :
  files h !! path file = Some (BinaryData buffer) →
  SupernoteX_new buffer = inr sn →
  0 < hardwareConcurrency →
  (∀ w chunk, ∃ data,
     worker_answer w sn chunk = Message data ∧ truthy (error data) = false ∧
     length (images data) = length chunk) →
  ∃ images ops,
    let filename := getAvailablePath (files h) (basename file +:+ ".pdf") in
    exportToPDF worker_answer hardwareConcurrency file_at getAvailablePath
      SupernoteX_new pdf_output file h
    = (Fulfilled (),
       with_files
         (with_world h
            (exportToPDF_convert worker_answer hardwareConcurrency sn (world h)).2)
         (<[filename := BinaryData (pdf_output ops)]> (files h))) ∧
    (exportToPDF_convert worker_answer hardwareConcurrency sn (world h)).1
    = Fulfilled images ∧
    length images = length (pages sn) ∧
    head ops = Some (PdfNew (pageWidth sn) (pageHeight sn)) ∧
    pdf_layout ops
    = (if decide (images = []) then [[]] else (λ image, [image]) <$> images) ∧
    files h !! filename = None.
Proof.
  intros Hfile Hparse Hhc Hw.
  destruct (call_site_succeeds worker_answer hardwareConcurrency (λ _, True)
              sn (world h) Hhc) as (images & Hconv & Hlen & _).
  { intros w chunk. destruct (Hw w chunk) as (data & Hans & Hok & Hl).
    exists data. split_and!; [done|done|done|]. by apply Forall_true. }
  change (writeImageFiles_convert worker_answer hardwareConcurrency)
    with (exportToPDF_convert worker_answer hardwareConcurrency) in Hconv.
  destruct (pdf_pages_layout sn images 0 [PdfNew (pageWidth sn) (pageHeight sn)] [])
    as (ops & Hrun & Hlayout & more & Hmore); [done|cbn; lia|done|].
  exists images, ops. cbv zeta.
  set (h1 := with_world h
    (exportToPDF_convert worker_answer hardwareConcurrency sn (world h)).2).
  split_and!.
  - unfold exportToPDF.
    rewrite (H_bind_fulfilled _ _ h h buffer) by (by apply readBinary_run).
    rewrite (H_bind_fulfilled _ _ h h sn) by (by rewrite Hparse).
    rewrite (H_bind_fulfilled _ _ h h1 images)
      by (rewrite lift_run; by rewrite Hconv).
    rewrite (H_bind_fulfilled _ _ h1 h1 ops) by (by rewrite Hrun).
    unfold mbind, H_bind, getAvailablePathForAttachment, Vault_createBinary,
      Vault_write.
    cbn [files h1 with_world]. by rewrite available_free.
  - done.
  - done.
  - by rewrite Hmore.
  - unfold pdf_layout.
    destruct (foldl pdf_step ([], []) ops) as [finished current].
    cbn [fst snd] in Hlayout. rewrite Hlayout. cbn [Nat.add app].
    destruct images; [done|]. cbn [length]. by rewrite decide_False by lia.
  - apply available_free.
Qed.

End ExportToPDF.

Lemma exportToPDF_writes_one_pdf_witness :
  ∃ images ops,
    let filename :=
      sample_available (files (sample_host sample_vault))
        (basename sample_file +:+ ".pdf") in
    exportToPDF url_worker 2 sample_file_at sample_available (sample_parser 3)
      (λ ops, [length ops]) sample_file (sample_host sample_vault)
    = (Fulfilled (),
       with_files
         (with_world (sample_host sample_vault)
            (exportToPDF_convert url_worker 2 (sample_note 3)
               (world (sample_host sample_vault))).2)
         (<[filename := BinaryData ((λ ops, [length ops]) ops)]>
            (files (sample_host sample_vault)))) ∧
    (exportToPDF_convert url_worker 2 (sample_note 3)
       (world (sample_host sample_vault))).1
    = Fulfilled images ∧
    length images = length (pages (sample_note 3)) ∧
    head ops = Some (PdfNew (pageWidth (sample_note 3)) (pageHeight (sample_note 3))) ∧
    pdf_layout ops
    = (if decide (images = []) then [[]] else (λ image, [image]) <$> images) ∧
    files (sample_host sample_vault) !! filename = None.
Proof.
  apply (exportToPDF_writes_one_pdf url_worker 2 sample_file_at sample_available
           (sample_parser 3) (λ ops, [length ops]) sample_available_free
           sample_file [1; 2; 3] (sample_note 3)).
  - exact sample_vault_note.
  - reflexivity.
  - lia.
  - intros w chunk. eexists. split_and!; [reflexivity|reflexivity|].
    cbn [images]. by rewrite length_fmap.
Defined.

(** ** The export commands *)

Lemma quiet_bind {A B : Type} (m : H A) (f : A → H B) :
  quiet m → (∀ a, quiet (f a)) → quiet (m ≫= f).
Proof.
  intros Hm Hf h. specialize (Hm h). unfold mbind, H_bind.
  destruct (m h) as [[a|e|] h1]; cbn [snd] in *; [|done..].
  by rewrite Hf.
Qed.

Lemma quiet_ret {A : Type} (a : A) : quiet (mret a).
Proof. by intros h. Qed.

Lemma quiet_returned {A : Type} (r : JsError + A) : quiet (returned r).
Proof. by destruct r. Qed.

Lemma quiet_lift {A : Type} (m : M A) : quiet (lift m).
Proof. intros h. by rewrite lift_run. Qed.

Lemma quiet_unawaited {A : Type} (m : H A) : quiet m → quiet (unawaited m).
Proof. intros Hm h. specialize (Hm h). unfold unawaited. by destruct (m h). Qed.

Lemma quiet_readBinary (file : TFile) : quiet (Vault_readBinary file).
Proof.
  intros h. unfold Vault_readBinary. by destruct (files h !! path file) as [[]|].
Qed.

Lemma quiet_write (file_at : string → TFile) (p : string) (data : FileData) :
  quiet (Vault_write file_at p data).
Proof. intros h. unfold Vault_write. by destruct (files h !! p). Qed.

Section Quiet.

Variable worker_answer : WorkerId → SupernoteX → list Z → WorkerReply.
Variable hardwareConcurrency : nat.
Variable atob : string → JsError + string.
Variable file_at : string → TFile.
Variable generateMarkdownLink : option TFile → string → option string → string.
Variable getAvailablePath : gmap string FileData → string → string.
Variable SupernoteX_new : list nat → JsError + SupernoteX.
Variable pdf_output : list PdfOp → list nat.
Variable settings : SupernotePluginSettings.

Lemma quiet_writeMarkdownFile (file : TFile) (sn : SupernoteX)
    (imgs : option (list TFile)) :
  quiet (writeMarkdownFile file_at generateMarkdownLink settings file sn imgs).
Proof.
  intros h. unfold writeMarkdownFile.
  destruct (filename_loop _ _ _ _ _); [|done].
  apply quiet_unawaited, quiet_write.
Qed.

Lemma quiet_save_images (file : TFile) (images : list Image) :
  ∀ i imgs, quiet (save_images atob file_at getAvailablePath file images i imgs).
Proof.
  induction images as [|image images IH]; intros i imgs; cbn [save_images].
  - apply quiet_ret.
  - apply quiet_bind; [done|]. intros filename.
    apply quiet_bind; [apply quiet_returned|]. intros buffer.
    apply quiet_bind; [apply quiet_write|]. intros img. apply IH.
Qed.

Lemma quiet_attachNoteFiles (file : TFile) :
  quiet (attachNoteFiles worker_answer hardwareConcurrency atob file_at
           generateMarkdownLink getAvailablePath SupernoteX_new settings file).
Proof.
  unfold attachNoteFiles.
  apply quiet_bind; [apply quiet_readBinary|]. intros note.
  apply quiet_bind; [apply quiet_returned|]. intros sn.
  apply quiet_bind.
  - unfold writeImageFiles. apply quiet_bind; [apply quiet_lift|]. intros images.
    apply quiet_save_images.
  - intros imgs. apply quiet_unawaited, quiet_writeMarkdownFile.
Qed.

Lemma quiet_attachMarkdownFile (file : TFile) :
  quiet (attachMarkdownFile file_at generateMarkdownLink SupernoteX_new settings file).
Proof.
  unfold attachMarkdownFile.
  apply quiet_bind; [apply quiet_readBinary|]. intros note.
  apply quiet_bind; [apply quiet_returned|]. intros sn.
  apply quiet_unawaited, quiet_writeMarkdownFile.
Qed.

Lemma quiet_exportToPDF (file : TFile) :
  quiet (exportToPDF worker_answer hardwareConcurrency file_at getAvailablePath
           SupernoteX_new pdf_output file).
Proof.
  unfold exportToPDF.
  apply quiet_bind; [apply quiet_readBinary|]. intros note.
  apply quiet_bind; [apply quiet_returned|]. intros sn.
  apply quiet_bind; [apply quiet_lift|]. intros images.
  apply quiet_bind; [apply quiet_returned|]. intros pdf.
  apply quiet_bind; [done|]. intros filename.
  apply quiet_bind; [apply quiet_write|]. intros img. apply quiet_ret.
Qed.

(** The callback of an export command, run: the export is started and not
    waited for, so neither branch that opens the [ErrorModal] is taken. *)
Lemma export_checkCallback_run (export : TFile → H unit) (checking : bool)
    (h : Host) :
  export_checkCallback export checking h
  = (Fulfilled (bool_decide (extension <$> activeFile h = Some "note")),
     match activeFile h with
     | Some file =>
         if bool_decide (extension file = "note") && negb checking
         then (export file h).2 else h
     | None => h
     end).
Proof.
  unfold export_checkCallback.
  destruct (activeFile h) as [file|]; cbn [fmap option_fmap option_map].
  - destruct (decide (extension file = "note")) as [Hext|Hext].
    + rewrite decide_True by (by rewrite Hext).
      rewrite !bool_decide_eq_true_2 by (by rewrite ?Hext).
      destruct checking; [done|]. cbn [andb negb].
      unfold mbind, H_bind, try_catch, unawaited. by destruct (export file h).
    + rewrite decide_False by (by intros [= ?]).
      rewrite !bool_decide_eq_false_2 by (by intros ?; simplify_eq). done.
  - rewrite decide_False by done. by rewrite bool_decide_eq_false_2.
Qed.

(** X17: The three export commands never put anything on the screen: asked
    whether they apply or asked to run, with the export succeeding, failing
    or not ending, each returns whether the active file is a note, and no
    [ErrorModal] is opened. *)
Theorem export_commands_show_nothing (checking : bool) (h : Host) :
  Forall (λ command : bool → H bool,
    ∃ h',
      command checking h
      = (Fulfilled (bool_decide (extension <$> activeFile h = Some "note")), h') ∧
      screen h' = screen h)
    [export_note_as_files_checkCallback worker_answer hardwareConcurrency atob
       file_at generateMarkdownLink getAvailablePath SupernoteX_new settings;
     export_note_as_pdf_checkCallback worker_answer hardwareConcurrency file_at
       getAvailablePath SupernoteX_new pdf_output;
     export_note_as_markdown_checkCallback file_at generateMarkdownLink
       SupernoteX_new settings].
Proof.
  assert (∀ export : TFile → H unit, (∀ file, quiet (export file)) →
    ∃ h',
      export_checkCallback export checking h
      = (Fulfilled (bool_decide (extension <$> activeFile h = Some "note")), h') ∧
      screen h' = screen h) as Hany.
  { intros export Hquiet. rewrite export_checkCallback_run.
    eexists. split; [reflexivity|].
    destruct (activeFile h) as [file|]; [|done].
    destruct (_ && _); [apply Hquiet|done]. }
  repeat constructor.
  - apply Hany, quiet_attachNoteFiles.
  - apply Hany, quiet_exportToPDF.
  - apply Hany, quiet_attachMarkdownFile.
Qed.

(** X18: A command that is run on a note returns true and leaves the host as the
    export leaves it, however the export ends: a failure of the export is
    reported nowhere. *)
Theorem export_checkCallback_hides_failure (export : TFile → H unit)
    (file : TFile) (h : Host) :
  activeFile h = Some file →
  extension file = "note" →
  export_checkCallback export false h = (Fulfilled true, (export file h).2).
Proof.
  intros Hfile Hext. rewrite export_checkCallback_run, Hfile.
  cbn [fmap option_fmap option_map]. rewrite Hext.
  by rewrite !bool_decide_eq_true_2.
Qed.

End Quiet.

Lemma export_checkCallback_hides_failure_witness :
  export_checkCallback (λ _, throw (A:=unit) (Error "export failed")) false
    (sample_host sample_vault)
  = (Fulfilled true,
     ((λ _, throw (A:=unit) (Error "export failed")) sample_file (sample_host sample_vault)).2).
Proof.
  apply (export_checkCallback_hides_failure (λ _, throw (A:=unit) (Error "export failed"))
           sample_file (sample_host sample_vault)); reflexivity.
Defined.

(** ** The screen-mirror command *)

Section Mirror.

Variable file_at : string → TFile.
Variable generateMarkdownLink : option TFile → string → option string → string.
Variable getAvailablePath : gmap string FileData → string → string.
Variable fetchMirrorFrame : string → JsError + list nat.
Variable settings : SupernotePluginSettings.

(** X19: Without a frame, the address unset or the fetch failing, the command
    ends without an error of its own and writes no file; it asks the network
    only when an address is set, and what it shows is the one fixed text of
    the modal, the same for both failures. *)
Theorem insert_mirror_image_without_frame (date : Date) (h : Host) :
  (String.length (mirrorIP settings) = 0 ∨
   ∃ e, fetchMirrorFrame (mirrorIP settings +:+ ":8080") = inl e) →
  ∃ h',
    insert_mirror_image_callback file_at generateMarkdownLink getAvailablePath
      fetchMirrorFrame settings date h = (Fulfilled (), h') ∧
    files h' = files h ∧
    world h' = world h ∧
    screen h'
    = screen h
      ++ (if decide (String.length (mirrorIP settings) = 0) then []
          else [FetchMirrorFrame (mirrorIP settings +:+ ":8080")])
      ++ [ShowMirrorErrorModal mirror_error_text].
Proof.
  intros Hfail. unfold insert_mirror_image_callback.
  unfold mbind at 1, H_bind at 1. unfold activeEditor_file at 1.
  unfold mbind at 1, H_bind at 1. unfold getAvailablePathForAttachment.
  unfold try_catch.
  destruct (decide (String.length (mirrorIP settings) = 0)) as [Hip|Hip].
  - eexists. split; [reflexivity|]. by cbn.
  - destruct Hfail as [?|[e He]]; [done|].
    unfold mbind at 1, H_bind at 1. cbn [mret H_ret].
    unfold fetch_frame. unfold mbind at 1 2, H_bind at 1 2. cbn [show].
    rewrite He. cbn [returned throw].
    eexists. split; [reflexivity|]. cbn [files world screen show MirrorErrorModal_open snd].
    by rewrite <- app_assoc.
Qed.

(** X20: With a frame fetched and a free path for it, the image is written to
    the vault first and the link is made after: when the editor has no file,
    or one without a path, the image stays in the vault and the modal is
    shown where the link would have been inserted. *)
Theorem insert_mirror_image_saves_frame (date : Date) (image : list nat) (h : Host) :
  let filename :=
    getAvailablePath (files h)
      ("supernote-mirror-" +:+ default "" (basename <$> activeEditorFile h)
         +:+ "-" +:+ generateTimestamp date +:+ ".png") in
  String.length (mirrorIP settings) ≠ 0 →
  fetchMirrorFrame (mirrorIP settings +:+ ":8080") = inr image →
  files h !! filename = None →
  ∃ h',
    insert_mirror_image_callback file_at generateMarkdownLink getAvailablePath
      fetchMirrorFrame settings date h = (Fulfilled (), h') ∧
    files h' = <[filename := BinaryData image]> (files h) ∧
    world h' = world h ∧
    screen h'
    = screen h
      ++ [FetchMirrorFrame (mirrorIP settings +:+ ":8080");
          match activeEditorFile h with
          | Some active =>
              if String.eqb (path active) ""
              then ShowMirrorErrorModal mirror_error_text
              else EditorReplaceRange
                     (generateMarkdownLink (Some (file_at filename)) (path active) None)
          | None => ShowMirrorErrorModal mirror_error_text
          end].
Proof.
  intros filename Hip Hframe Hfree. unfold insert_mirror_image_callback.
  unfold mbind at 1, H_bind at 1. unfold activeEditor_file at 1.
  unfold mbind at 1, H_bind at 1. unfold getAvailablePathForAttachment.
  fold filename. unfold try_catch.
  rewrite decide_False by done.
  unfold mbind at 1, H_bind at 1. cbn [mret H_ret].
  unfold fetch_frame. unfold mbind at 1 2, H_bind at 1 2. unfold show at 1.
  rewrite Hframe. cbn [returned mret H_ret].
  unfold mbind at 1, H_bind at 1. unfold Vault_createBinary, Vault_write.
  unfold mret at 1, H_ret at 1. cbn [files]. rewrite Hfree.
  unfold mbind at 1, H_bind at 1. unfold activeEditor_file.
  cbn [activeEditorFile with_files].
  destruct (activeEditorFile h) as [active|]; cbn [fmap option_fmap option_map].
  - destruct (String.eqb (path active) "");
      eexists; (split; [reflexivity|]); cbn; by rewrite <- ?app_assoc.
  - eexists; (split; [reflexivity|]); cbn; by rewrite <- ?app_assoc.
Qed.

End Mirror.

Lemma insert_mirror_image_without_frame_witness :
  ∃ h',
    insert_mirror_image_callback sample_file_at sample_link sample_available
      (λ _, inl (Error "timeout")) DEFAULT_SETTINGS
      {| getFullYear := 2024; getMonth := 0; getDate := 5; getHours := 9;
         getMinutes := 30; getSeconds := 7 |}
      (sample_host ∅) = (Fulfilled (), h') ∧
    files h' = files (sample_host ∅) ∧
    world h' = world (sample_host ∅) ∧
    screen h'
    = screen (sample_host ∅)
      ++ (if decide (String.length (mirrorIP DEFAULT_SETTINGS) = 0) then []
          else [FetchMirrorFrame (mirrorIP DEFAULT_SETTINGS +:+ ":8080")])
      ++ [ShowMirrorErrorModal mirror_error_text].
Proof.
  apply (insert_mirror_image_without_frame sample_file_at sample_link
           sample_available (λ _, inl (Error "timeout")) DEFAULT_SETTINGS).
  left. reflexivity.
Defined.

Lemma insert_mirror_image_saves_frame_witness :
  let settings :=
    {| mirrorIP := "192.168.1.20"; invertColorsWhenDark := true; showTOC := true;
       showExportButtons := true; collapseRecognizedText := false;
       noteImageMaxDim := 800 |} in
  let date :=
    {| getFullYear := 2024; getMonth := 0; getDate := 5; getHours := 9;
       getMinutes := 30; getSeconds := 7 |} in
  let h := sample_host ∅ in
  let filename :=
    sample_available (files h)
      ("supernote-mirror-" +:+ default "" (basename <$> activeEditorFile h)
         +:+ "-" +:+ generateTimestamp date +:+ ".png") in
  ∃ h',
    insert_mirror_image_callback sample_file_at sample_link sample_available
      (λ _, inr [137; 80; 78; 71]) settings date h = (Fulfilled (), h') ∧
    files h' = <[filename := BinaryData [137; 80; 78; 71]]> (files h) ∧
    world h' = world h ∧
    screen h'
    = screen h
      ++ [FetchMirrorFrame (mirrorIP settings +:+ ":8080");
          match activeEditorFile h with
          | Some active =>
              if String.eqb (path active) ""
              then ShowMirrorErrorModal mirror_error_text
              else EditorReplaceRange
                     (sample_link (Some (sample_file_at filename)) (path active) None)
          | None => ShowMirrorErrorModal mirror_error_text
          end].
Proof.
  intros settings date h.
  apply (insert_mirror_image_saves_frame sample_file_at sample_link sample_available
           (λ _, inr [137; 80; 78; 71]) settings date [137; 80; 78; 71] h).
  - discriminate.
  - reflexivity.
  - apply sample_available_free.
Defined.
